(** * IBMQFactory: account and provider management

    A shallow embedding of [qiskit/providers/ibmq/ibmqfactory.py].

    The factory object holds two attributes, [_credentials] and [_providers];
    its methods are embedded as computations in a small monad that threads
    the object, carries the raised exception (if any) and collects the
    records sent to [logger.warning].  The collaborators of the module (the
    version and authentication clients, the provider constructor, the
    credential discovery and the configuration file) are an explicit record
    of answers, so every statement below quantifies over what they return
    or raise. *)

From Stdlib Require Import List String Bool ZArith Arith Lia.
Import ListNotations.

Set Implicit Arguments.

(** ** Python values and truth *)

(** The values a caller may pass where the code itself inspects the dynamic
    type ([save_account] tests [isinstance(token, str)]). *)
Inductive pyval : Type :=
| PyNone
| PyBool (b : bool)
| PyInt (z : Z)
| PyStr (s : string)
| PyBytes (b : list Byte.byte).

(** [bool(v)]. *)
Definition truthy (v : pyval) : bool :=
  match v with
  | PyNone => false
  | PyBool b => b
  | PyInt z => negb (Z.eqb z 0)
  | PyStr s => negb (String.eqb s "")
  | PyBytes b => match b with [] => false | _ :: _ => true end
  end.

(** [isinstance(v, str)]. *)
Definition isinstance_str (v : pyval) : bool :=
  match v with
  | PyStr _ => true
  | _ => false
  end.

(** Truth of an [Optional[str]] argument: [None] and [''] are false. *)
Definition truthy_opt (o : option string) : bool :=
  match o with
  | None => false
  | Some s => negb (String.eqb s "")
  end.

(** [a == b] on [Optional[str]] values. *)
Definition opt_eqb (a b : option string) : bool :=
  match a, b with
  | Some x, Some y => String.eqb x y
  | None, None => true
  | _, _ => false
  end.

(** ** Data model *)

(** Modelled from the spec: [HubGroupProject], the named tuple of the
    credentials package used as key of [_providers] (the scope key). *)
Module HubGroupProject.

Record t : Type := mk {
  hub : option string;
  group : option string;
  project : option string
}.

(** [a == b] on named tuples: field by field. *)
Definition eqb (a b : t) : bool :=
  opt_eqb (hub a) (hub b) && opt_eqb (group a) (group b)
  && opt_eqb (project a) (project b).

End HubGroupProject.

(** Modelled from the spec: the class [Credentials] lives in
    [credentials/credentials.py], which is not part of the sources at hand.
    The fields are those the factory reads or passes; [unique_id] is the
    scope identity built from hub, group and project. *)
Record Credentials : Type := mkCredentials {
  token : pyval;
  url : string;
  websockets_url : option string;
  proxies : option (list (string * string));
  verify : bool;
  c_hub : option string;
  c_group : option string;
  c_project : option string
}.

Definition unique_id (c : Credentials) : HubGroupProject.t :=
  HubGroupProject.mk (c_hub c) (c_group c) (c_project c).

(** The keyword arguments the factory forwards to [Credentials]. *)
Record Kwargs : Type := mkKwargs {
  kw_proxies : option (list (string * string));
  kw_verify : bool
}.

(** [Credentials(token, url, **kwargs)]. *)
Definition Credentials_of (tok : pyval) (u : string) (kw : Kwargs)
  : Credentials :=
  mkCredentials tok u None (kw_proxies kw) (kw_verify kw) None None None.

(** Modelled from the spec: one element of [auth_client.user_hubs()], a
    dictionary with the keys hub, group and project. *)
Record HubInfo : Type := mkHubInfo {
  hi_hub : string;
  hi_group : string;
  hi_project : string
}.

(** Modelled from the spec: the answer of
    [auth_client.current_service_urls()], read at ['http'] and ['ws']. *)
Record ServiceUrls : Type := mkServiceUrls {
  http : string;
  ws : string
}.

(** Modelled from the spec: the answer of [VersionClient.version()];
    ['new_api'] is always present, ['api-auth'] may be absent. *)
Record VersionInfo : Type := mkVersionInfo {
  new_api : bool;
  api_auth : option string
}.

(** Modelled from the spec: the handle built by
    [AccountProvider(credentials, access_token)], bound to one scope. *)
Record AccountProvider : Type := mkAccountProvider {
  provider_credentials : Credentials;
  provider_access_token : string
}.

(** ** Exceptions and log records *)

Inductive exn : Type :=
| IBMQAccountError (msg : string)
| IBMQAccountCredentialsNotFound (msg : string)
| IBMQAccountMultipleCredentialsFound (msg : string)
| IBMQAccountCredentialsInvalidUrl (msg : string)
  (* the message formats the token and its type; the value is kept *)
| IBMQAccountCredentialsInvalidToken (tok : pyval)
| IBMQProviderError (msg : string)
  (* anything raised by a collaborator *)
| OtherException (name : string).

Inductive log_arg : Type :=
| ArgHubInfo (h : HubInfo)
| ArgExn (e : exn).

(** A call [logger.warning(msg, *args)]. *)
Record LogRecord : Type := warning {
  log_msg : string;
  log_args : list log_arg
}.

Definition QX_AUTH_URL : string :=
  "https://auth.quantum-computing.ibm.com/api".

Definition UPDATE_ACCOUNT_TEXT : string :=
  String.append "Please update your accounts and programs by following the "
 (String.append "instructions here: https://github.com/Qiskit/qiskit-ibmq-provider#"
                "updating-to-the-new-ibm-q-experience ").

(** ** Ordered dictionaries *)

Module OrderedDict.

(** Items in insertion order; keys are kept pairwise different by
    [setitem]. *)
Definition t (V : Type) : Type := list (HubGroupProject.t * V).

Definition empty {V : Type} : t V := [].

(** [d[k] = v]: an existing key keeps its position, a new one goes last. *)
Fixpoint setitem {V : Type} (k : HubGroupProject.t) (v : V) (d : t V) : t V :=
  match d with
  | [] => [(k, v)]
  | (k', v') :: d' =>
      if HubGroupProject.eqb k' k then (k', v) :: d' else (k', v') :: setitem k v d'
  end.

Definition items {V : Type} (d : t V) : list (HubGroupProject.t * V) := d.
Definition keys {V : Type} (d : t V) : list HubGroupProject.t := map fst d.
Definition values {V : Type} (d : t V) : list V := map snd d.
Definition len {V : Type} (d : t V) : nat := List.length d.

End OrderedDict.

(** ** The factory object and the collaborators *)

Record IBMQFactory : Type := mkFactory {
  _credentials : option Credentials;
  _providers : OrderedDict.t AccountProvider
}.

(** [IBMQFactory.__init__]. *)
Definition init : IBMQFactory := mkFactory None OrderedDict.empty.

(** Modelled from the spec: an [AuthClient] instance, as the answers of the
    three methods the factory calls. *)
Record AuthClient : Type := mkAuthClient {
  current_service_urls : exn + ServiceUrls;
  user_hubs : exn + list HubInfo;
  current_access_token : exn + string
}.

(** What the world outside the module answers during one call. *)
Record Collaborators : Type := mkCollaborators {
  (* [VersionClient(...).version()] *)
  VersionClient_version : Credentials -> exn + VersionInfo;
  (* [AuthClient(token, base_url, ...)] *)
  AuthClient_new : Credentials -> exn + AuthClient;
  (* [AccountProvider(credentials, access_token)]: the exception, if any *)
  AccountProvider_raises : Credentials -> string -> option exn;
  discover_credentials : exn + OrderedDict.t Credentials;
  read_credentials_from_qiskitrc : exn + OrderedDict.t Credentials;
  store_credentials : Credentials -> bool -> exn + unit;
  remove_credentials : Credentials -> exn + unit;
  update_credentials : bool -> exn + option Credentials;
  (* what [Credentials(..., url=u, **hub_info)] derives, its body being
     outside the sources at hand: the scope identity it keeps for the hub
     entry under the url [u], and the url it keeps for that scope *)
  Credentials_scope : string -> HubInfo -> HubGroupProject.t;
  Credentials_url : string -> HubGroupProject.t -> string
}.

(** ** The monad of the methods

    A method runs on the object, may raise, may change the object before it
    raises, and may log. *)

Record Outcome (A : Type) : Type := mkOutcome {
  result : exn + A;
  final : IBMQFactory;
  logged : list LogRecord
}.

Definition M (A : Type) : Type := IBMQFactory -> Outcome A.

Definition ret {A : Type} (a : A) : M A :=
  fun self => mkOutcome (inr a) self [].

Definition bind {A B : Type} (m : M A) (k : A -> M B) : M B :=
  fun self =>
    let o := m self in
    match result o with
    | inl e => mkOutcome (inl e) (final o) (logged o)
    | inr a =>
        let o' := k a (final o) in
        mkOutcome (result o') (final o') (logged o ++ logged o')
    end.

Notation "x <- c1 ;; c2" := (bind c1 (fun x => c2))
  (at level 61, c1 at next level, right associativity).
Notation "c1 ;; c2" := (bind c1 (fun _ => c2))
  (at level 61, right associativity).

Definition raise {A : Type} (e : exn) : M A :=
  fun self => mkOutcome (inl e) self [].

(** The answer of a collaborator: its value, or its exception re-raised. *)
Definition call {A : Type} (r : exn + A) : M A :=
  fun self => mkOutcome r self [].

(** Reading the object. *)
Definition reads {A : Type} (f : IBMQFactory -> A) : M A :=
  fun self => mkOutcome (inr (f self)) self [].

Definition set_credentials (c : option Credentials) : M unit :=
  fun self => mkOutcome (inr tt) (mkFactory c (_providers self)) [].

Definition set_providers (d : OrderedDict.t AccountProvider) : M unit :=
  fun self => mkOutcome (inr tt) (mkFactory (_credentials self) d) [].

Definition logger_warning (msg : string) (args : list log_arg) : M unit :=
  fun self => mkOutcome (inr tt) self [warning msg args].

(** [if b: m]. *)
Definition when (b : bool) (m : M unit) : M unit :=
  if b then m else ret tt.

(** [try: m  except Exception as ex: h(ex)]. *)
Definition try_except {A : Type} (m : M A) (h : exn -> M A) : M A :=
  fun self =>
    let o := m self in
    match result o with
    | inr _ => o
    | inl ex =>
        let o' := h ex (final o) in
        mkOutcome (result o') (final o') (logged o ++ logged o')
    end.

(** [for x in l: body(x)]. *)
Fixpoint for_each {A : Type} (l : list A) (body : A -> M unit) : M unit :=
  match l with
  | [] => ret tt
  | x :: l' => body x ;; for_each l' body
  end.

(** Truth of [self._credentials]: the object is true unless it is [None]. *)
Definition is_active (c : option Credentials) : bool :=
  match c with
  | Some _ => true
  | None => false
  end.

(** ** Provider management *)

(** [IBMQFactory.providers]: one closure per true argument, then the
    comprehension over [self._providers.items()]. *)
Definition providers (self : IBMQFactory)
    (hub group project : option string) : list AccountProvider :=
  let filters : list (HubGroupProject.t -> bool) := [] in
  let filters :=
    if truthy_opt hub
    then filters ++ [fun hgp => opt_eqb (HubGroupProject.hub hgp) hub]
    else filters in
  let filters :=
    if truthy_opt group
    then filters ++ [fun hgp => opt_eqb (HubGroupProject.group hgp) group]
    else filters in
  let filters :=
    if truthy_opt project
    then filters ++ [fun hgp => opt_eqb (HubGroupProject.project hgp) project]
    else filters in
  map snd
    (filter (fun item => forallb (fun f => f (fst item)) filters)
            (OrderedDict.items (_providers self))).

(** [IBMQFactory.get_provider]. *)
Definition get_provider (hub group project : option string)
  : M AccountProvider :=
  providers <- reads (fun self => providers self hub group project) ;;
  when (match providers with [] => true | _ => false end)
       (raise (IBMQProviderError "No provider matches the criteria.")) ;;
  when (1 <? List.length providers)
       (raise (IBMQProviderError
                 "More than one provider matches the criteria.")) ;;
  match providers with
  | p :: _ => ret p
  | [] => raise (OtherException "IndexError")
  end.

(** ** Private functions *)

(** [IBMQFactory._check_api_version]. *)
Definition _check_api_version (env : Collaborators)
    (credentials : Credentials) : M VersionInfo :=
  call (VersionClient_version env credentials).

(** The credentials of one hub entry, as built inside the loop:
    [Credentials(credentials.token, url=service_urls['http'],
    websockets_url=service_urls['ws'], proxies=credentials.proxies,
    verify=credentials.verify, **hub_info)].

    Modelled from the spec: the constructor keeps the token, the websocket
    url, the proxies and the verify flag it is given, and derives the scope
    identity (and with it the url) from the url and from hub, group and
    project; this derivation is the parameter [Credentials_scope],
    [Credentials_url] of the collaborators, so that nothing is assumed on
    when a hub entry keeps its hub, group and project.  The service urls and
    the hub entries have the keys of the interface ([http] and [ws]; hub,
    group and project), with which the call returns. *)
Definition hub_credentials (env : Collaborators) (credentials : Credentials)
    (service_urls : ServiceUrls) (hub_info : HubInfo) : Credentials :=
  let scope := Credentials_scope env (http service_urls) hub_info in
  mkCredentials (token credentials)
                (Credentials_url env (http service_urls) scope)
                (Some (ws service_urls))
                (proxies credentials)
                (verify credentials)
                (HubGroupProject.hub scope)
                (HubGroupProject.group scope)
                (HubGroupProject.project scope).

(** The body of the loop of [_initialize_providers]: build the credentials
    of the hub entry, then try to build and store its provider. *)
Definition build_provider (env : Collaborators) (auth_client : AuthClient)
    (credentials : Credentials) (service_urls : ServiceUrls)
    (hub_info : HubInfo) : M unit :=
  let provider_credentials :=
    hub_credentials env credentials service_urls hub_info in
  try_except
    (access_token <- call (current_access_token auth_client) ;;
     call (match AccountProvider_raises env provider_credentials
                   access_token with
           | Some ex => inl ex
           | None => inr tt
           end) ;;
     let provider := mkAccountProvider provider_credentials access_token in
     d <- reads _providers ;;
     set_providers
       (OrderedDict.setitem (unique_id provider_credentials) provider d))
    (fun ex =>
       logger_warning "Unable to instantiate provider for %s: %s"
                      [ArgHubInfo hub_info; ArgExn ex]).

(** [IBMQFactory._initialize_providers]. *)
Definition _initialize_providers (env : Collaborators)
    (credentials : Credentials) : M unit :=
  auth_client <- call (AuthClient_new env credentials) ;;
  service_urls <- call (current_service_urls auth_client) ;;
  user_hubs <- call (user_hubs auth_client) ;;
  set_credentials (Some credentials) ;;
  for_each user_hubs
    (build_provider env auth_client credentials service_urls).

(** ** Account management *)

Definition invalid_url_msg (credentials : Credentials) : string :=
  String.append "The URL specified ("
 (String.append (url credentials)
 (String.append ") is not an IBM Quantum Experience authentication URL. Valid authentication URL: "
 (String.append QX_AUTH_URL "."))).

Definition no_hubs_msg : string :=
  "No Hub/Group/Projects could be found for this account.".

(** The tail shared by [enable_account] and [load_account]. *)
Definition first_provider : M (option AccountProvider) :=
  providers <- reads (fun self => providers self None None None) ;;
  match providers with
  | [] => logger_warning no_hubs_msg [] ;; ret None
  | p :: _ => ret (Some p)
  end.

(** [IBMQFactory.enable_account]. *)
Definition enable_account (env : Collaborators)
    (token : pyval) (url : string) (kwargs : Kwargs)
  : M (option AccountProvider) :=
  active <- reads _credentials ;;
  when (is_active active)
       (raise (IBMQAccountError
          "An IBM Quantum Experience account is already in use for the session.")) ;;
  let credentials := Credentials_of token url kwargs in
  version_info <- _check_api_version env credentials ;;
  when (negb (new_api version_info)
        || match api_auth version_info with None => true | Some _ => false end)
       (raise (IBMQAccountCredentialsInvalidUrl
                 (invalid_url_msg credentials))) ;;
  _initialize_providers env credentials ;;
  first_provider.

(** [IBMQFactory.disable_account]. *)
Definition disable_account : M unit :=
  active <- reads _credentials ;;
  when (negb (is_active active))
       (raise (IBMQAccountCredentialsNotFound
          "No IBM Quantum Experience account is in use for the session.")) ;;
  set_credentials None ;;
  set_providers OrderedDict.empty.

(** [IBMQFactory.load_account]. *)
Definition load_account (env : Collaborators) : M (option AccountProvider) :=
  discovered <- call (discover_credentials env) ;;
  let credentials_list := OrderedDict.values discovered in
  match credentials_list with
  | [] =>
      raise (IBMQAccountCredentialsNotFound
               "No IBM Quantum Experience credentials found.")
  | credentials :: rest =>
      when (1 <? List.length credentials_list)
           (raise (IBMQAccountMultipleCredentialsFound
              (String.append
                 "Multiple IBM Quantum Experience credentials found. "
                 UPDATE_ACCOUNT_TEXT))) ;;
      version_info <- _check_api_version env credentials ;;
      when (negb (new_api version_info)
            || match api_auth version_info with
               | None => true
               | Some _ => false
               end)
           (raise (IBMQAccountCredentialsInvalidUrl
              (String.append
                 "Invalid IBM Quantum Experience credentials found. "
                 UPDATE_ACCOUNT_TEXT))) ;;
      active <- reads _credentials ;;
      when (is_active active)
           (logger_warning
              "Credentials are already in use. The existing account in the session will be replaced."
              [] ;;
            disable_account) ;;
      _initialize_providers env credentials ;;
      first_provider
  end.

(** [IBMQFactory.active_account]: token and url of the account in use. *)
Definition active_account (self : IBMQFactory) : option (pyval * string) :=
  match _credentials self with
  | None => None
  | Some c => Some (token c, url c)
  end.

(** ** Static methods: the account on disk

    They have no [self]; they may raise, or return what follows from the
    answers of the configuration file. *)

Definition invalid_disk_msg : string :=
  String.append "Invalid IBM Quantum Experience credentials found on disk. "
                UPDATE_ACCOUNT_TEXT.

Definition multiple_disk_msg : string :=
  String.append "Multiple IBM Quantum Experience credentials found on disk. "
                UPDATE_ACCOUNT_TEXT.

(** [IBMQFactory.save_account]. *)
Definition save_account (env : Collaborators)
    (token : pyval) (url : string) (overwrite : bool) (kwargs : Kwargs)
  : exn + unit :=
  if negb (String.eqb url QX_AUTH_URL) then
    inl (IBMQAccountCredentialsInvalidUrl
           (String.append "Invalid IBM Q Experience credentials found. "
                          UPDATE_ACCOUNT_TEXT))
  else if negb (truthy token) || negb (isinstance_str token) then
    inl (IBMQAccountCredentialsInvalidToken token)
  else
    let credentials := Credentials_of token url kwargs in
    store_credentials env credentials overwrite.

(** [IBMQFactory.delete_account]. *)
Definition delete_account (env : Collaborators) : exn + unit :=
  match read_credentials_from_qiskitrc env with
  | inl ex => inl ex
  | inr stored_credentials =>
      match OrderedDict.values stored_credentials with
      | [] =>
          inl (IBMQAccountCredentialsNotFound
                 "No IBM Quantum Experience credentials found on disk.")
      | credentials :: _ =>
          if negb (OrderedDict.len stored_credentials =? 1) then
            inl (IBMQAccountMultipleCredentialsFound multiple_disk_msg)
          else if negb (String.eqb (url credentials) QX_AUTH_URL) then
            inl (IBMQAccountCredentialsInvalidUrl invalid_disk_msg)
          else remove_credentials env credentials
      end
  end.

(** [IBMQFactory.stored_account]: the dictionary returned is empty, or holds
    the token and the url. *)
Definition stored_account (env : Collaborators)
  : exn + option (pyval * string) :=
  match read_credentials_from_qiskitrc env with
  | inl ex => inl ex
  | inr stored_credentials =>
      match OrderedDict.values stored_credentials with
      | [] => inr None
      | credentials :: _ =>
          if 1 <? OrderedDict.len stored_credentials then
            inl (IBMQAccountMultipleCredentialsFound multiple_disk_msg)
          else if negb (String.eqb (url credentials) QX_AUTH_URL) then
            inl (IBMQAccountCredentialsInvalidUrl invalid_disk_msg)
          else inr (Some (token credentials, url credentials))
      end
  end.

(** [IBMQFactory.update_account]. *)
Definition update_account (env : Collaborators) (force : bool)
  : exn + option Credentials :=
  update_credentials env force.

(** ** Sessions: sequences of calls on one factory *)

Inductive request : Type :=
| EnableAccount (token : pyval) (url : string) (kwargs : Kwargs)
| DisableAccount
| LoadAccount
| SaveAccount (token : pyval) (url : string) (overwrite : bool)
              (kwargs : Kwargs)
| DeleteAccount
| StoredAccount
| ActiveAccount
| UpdateAccount (force : bool)
| Providers (hub group project : option string)
| GetProvider (hub group project : option string).

(** The object after one call, whether the call returned or raised. *)
Definition exec (env : Collaborators) (r : request) (self : IBMQFactory)
  : IBMQFactory :=
  match r with
  | EnableAccount token url kwargs =>
      final (enable_account env token url kwargs self)
  | DisableAccount => final (disable_account self)
  | LoadAccount => final (load_account env self)
  | GetProvider hub group project =>
      final (get_provider hub group project self)
  | SaveAccount _ _ _ _ | DeleteAccount | StoredAccount | ActiveAccount
  | UpdateAccount _ | Providers _ _ _ => self
  end.

(** The object after a sequence of calls, each with the answers the
    collaborators gave during it. *)
Definition run (calls : list (Collaborators * request))
    (self : IBMQFactory) : IBMQFactory :=
  fold_left (fun s c => exec (fst c) (snd c) s) calls self.

(** ** What the specification says, in its own words *)

(** The invariant of the session state: providers only under an active
    credential. *)
Definition session_invariant (self : IBMQFactory) : Prop :=
  _providers self <> [] -> _credentials self <> None.

(** A scope key matches the filters when it agrees with every supplied
    (non-null) one. *)
Definition matches_non_null (hub group project : option string)
    (key : HubGroupProject.t) : bool :=
  (match hub with None => true
   | Some _ => opt_eqb (HubGroupProject.hub key) hub end)
  && (match group with None => true
      | Some _ => opt_eqb (HubGroupProject.group key) group end)
  && (match project with None => true
      | Some _ => opt_eqb (HubGroupProject.project key) project end).

(** A scope key matches the filters when it agrees with every supplied one
    that is neither null nor the empty string. *)
Definition matches_non_empty (hub group project : option string)
    (key : HubGroupProject.t) : bool :=
  (if truthy_opt hub then opt_eqb (HubGroupProject.hub key) hub else true)
  && (if truthy_opt group
      then opt_eqb (HubGroupProject.group key) group else true)
  && (if truthy_opt project
      then opt_eqb (HubGroupProject.project key) project else true).

(** The providers of the entries whose key passes [p], in the order of the
    map. *)
Definition select (p : HubGroupProject.t -> bool)
    (d : OrderedDict.t AccountProvider) : list AccountProvider :=
  OrderedDict.values (filter (fun item => p (fst item)) d).

(** The names of the specification's error taxonomy. *)
Definition AlreadyActive : exn :=
  IBMQAccountError
    "An IBM Quantum Experience account is already in use for the session.".
Definition NoMatchingProvider : exn :=
  IBMQProviderError "No provider matches the criteria.".
Definition AmbiguousProvider : exn :=
  IBMQProviderError "More than one provider matches the criteria.".

(** What provider construction gives for one set of credentials: the handle,
    or the exception caught by the loop. *)
Definition construct (env : Collaborators) (auth_client : AuthClient)
    (provider_credentials : Credentials) : exn + AccountProvider :=
  match current_access_token auth_client with
  | inl ex => inl ex
  | inr access_token =>
      match AccountProvider_raises env provider_credentials access_token with
      | Some ex => inl ex
      | None => inr (mkAccountProvider provider_credentials access_token)
      end
  end.

(** Whether construction succeeds for a hub entry. *)
Definition constructs (env : Collaborators) (auth_client : AuthClient)
    (credentials : Credentials) (service_urls : ServiceUrls)
    (hub_info : HubInfo) : bool :=
  match construct env auth_client
          (hub_credentials env credentials service_urls hub_info) with
  | inr _ => true
  | inl _ => false
  end.

(** The hub, group and project of a hub entry, as a scope key. *)
Definition scope_key (hub_info : HubInfo) : HubGroupProject.t :=
  HubGroupProject.mk (Some (hi_hub hub_info)) (Some (hi_group hub_info))
                     (Some (hi_project hub_info)).

(** The key under which the provider of a hub entry is stored:
    [provider_credentials.unique_id()]. *)
Definition stored_key (env : Collaborators) (credentials : Credentials)
    (service_urls : ServiceUrls) (hub_info : HubInfo) : HubGroupProject.t :=
  unique_id (hub_credentials env credentials service_urls hub_info).

(** The provider map after population: every entry that constructs is
    stored under the scope key of its credentials, the others leave the map
    as it is. *)
Definition populate (env : Collaborators) (auth_client : AuthClient)
    (credentials : Credentials) (service_urls : ServiceUrls)
    (hubs : list HubInfo) (d : OrderedDict.t AccountProvider)
  : OrderedDict.t AccountProvider :=
  fold_left
    (fun d hub_info =>
       let pc := hub_credentials env credentials service_urls hub_info in
       match construct env auth_client pc with
       | inr provider => OrderedDict.setitem (unique_id pc) provider d
       | inl _ => d
       end)
    hubs d.

(** The warnings of population: one per entry that fails, in order. *)
Definition failures (env : Collaborators) (auth_client : AuthClient)
    (credentials : Credentials) (service_urls : ServiceUrls)
    (hubs : list HubInfo) : list LogRecord :=
  flat_map
    (fun hub_info =>
       match construct env auth_client
               (hub_credentials env credentials service_urls hub_info) with
       | inr _ => []
       | inl ex =>
           [warning "Unable to instantiate provider for %s: %s"
                    [ArgHubInfo hub_info; ArgExn ex]]
       end)
    hubs.

(** Whether the version endpoint reports a new-API authentication
    endpoint. *)
Definition reports_new_api_auth (v : VersionInfo) : bool :=
  new_api v && match api_auth v with Some _ => true | None => false end.

(** How far a call may move the object: not at all, back to the object of
    [__init__], or to an object with an active credential. *)
Definition moved (self self' : IBMQFactory) : Prop :=
  self' = self \/ self' = init \/ _credentials self' <> None.

(** A call that cannot reach [disable_account], directly or through
    [load_account]. *)
Definition keeps_account (r : request) : bool :=
  match r with
  | DisableAccount | LoadAccount => false
  | _ => true
  end.

(** A token is valid for [save_account] when it is a non-empty string. *)
Definition nonempty_str (v : pyval) : Prop :=
  exists s : string, v = PyStr s /\ s <> EmptyString.

(** The remaining names of the error taxonomy. *)
Definition NotFound : exn :=
  IBMQAccountCredentialsNotFound
    "No IBM Quantum Experience credentials found.".
Definition MultipleFound : exn :=
  IBMQAccountMultipleCredentialsFound
    (String.append "Multiple IBM Quantum Experience credentials found. "
                   UPDATE_ACCOUNT_TEXT).
Definition NotFoundOnDisk : exn :=
  IBMQAccountCredentialsNotFound
    "No IBM Quantum Experience credentials found on disk.".
Definition InvalidUrlToSave : exn :=
  IBMQAccountCredentialsInvalidUrl
    (String.append "Invalid IBM Q Experience credentials found. "
                   UPDATE_ACCOUNT_TEXT).

(** ** Sample data *)

Module Sample.

Definition kwargs : Kwargs := mkKwargs None true.
Definition api_token : pyval := PyStr "0123abcd".

Definition open_main : HubInfo := mkHubInfo "ibm-q" "open" "main".
Definition research_lab : HubInfo := mkHubInfo "ibm-q" "research" "lab".
Definition partner_pilot : HubInfo := mkHubInfo "partner" "internal" "pilot".

Definition service_urls : ServiceUrls :=
  mkServiceUrls "https://api.quantum-computing.ibm.com/api"
                "wss://wss.quantum-computing.ibm.com/".

(** The scope a credential keeps for a hub entry: its hub, group and
    project when all three are given, none otherwise; and the url of a
    scoped credential. *)
Definition scope_of (u : string) (h : HubInfo) : HubGroupProject.t :=
  if negb (String.eqb (hi_hub h) "") && negb (String.eqb (hi_group h) "")
     && negb (String.eqb (hi_project h) "")
  then scope_key h
  else HubGroupProject.mk None None None.

Definition url_of (prefix : string) (k : HubGroupProject.t) : string :=
  match k with
  | HubGroupProject.mk (Some h) (Some g) (Some p) =>
      String.append prefix
     (String.append "/Network/"
     (String.append h
     (String.append "/Groups/"
     (String.append g (String.append "/Projects/" p)))))
  | _ => prefix
  end.

Definition auth_client (hubs : list HubInfo) : AuthClient :=
  mkAuthClient (inr service_urls) (inr hubs) (inr "access-token"%string).

(** Collaborators that answer every call; provider construction raises
    for the project [failing], and the disk and the discovery hold
    [stored]. *)
Definition env (hubs : list HubInfo) (failing : string)
    (stored : OrderedDict.t Credentials) : Collaborators :=
  mkCollaborators
    (fun _ => inr (mkVersionInfo true (Some "auth"%string)))
    (fun _ => inr (auth_client hubs))
    (fun c _ =>
       if opt_eqb (c_project c) (Some failing)
       then Some (OtherException "ApiError") else None)
    (inr stored)
    (inr stored)
    (fun _ _ => inr tt)
    (fun _ => inr tt)
    (fun _ => inr None)
    scope_of
    url_of.

Definition credentials : Credentials :=
  Credentials_of api_token QX_AUTH_URL kwargs.

(** The provider of a hub entry under these collaborators. *)
Definition provider_for (h : HubInfo) : AccountProvider :=
  mkAccountProvider
    (hub_credentials (env [] "none" []) credentials service_urls h)
    "access-token".

Definition legacy_credentials : Credentials :=
  Credentials_of api_token "https://quantumexperience.ng.bluemix.net/api"
                 kwargs.

(** The object after [enable_account] with two hub entries. *)
Definition enabled : IBMQFactory :=
  final (enable_account (env [open_main; research_lab] "none" [])
                        api_token QX_AUTH_URL kwargs init).

(** Three hub entries, two of them for the same scope; construction
    raises for the third only. *)
Definition repeated_hubs : list HubInfo :=
  [open_main; open_main; research_lab].

Definition repeated_env : Collaborators := env repeated_hubs "lab" [].

(** Three hub entries that differ in hub and group, two of them without a
    project: their credentials keep no scope and share the key
    [(None, None, None)]. *)
Definition unscoped_hubs : list HubInfo :=
  [mkHubInfo "ibm-q" "open" ""; mkHubInfo "partner" "internal" "";
   research_lab].

Definition unscoped_env : Collaborators := env unscoped_hubs "lab" [].

(** Three hub entries for three scopes; construction raises for the
    second only. *)
Definition three_hubs : list HubInfo :=
  [open_main; research_lab; partner_pilot].

Definition three_env : Collaborators := env three_hubs "lab" [].

(** One stored credential, and an authentication server that cannot be
    reached: the version endpoint answers, the client raises. *)
Definition stored_one : OrderedDict.t Credentials :=
  [(unique_id credentials, credentials)].

Definition unreachable_env : Collaborators :=
  mkCollaborators
    (fun _ => inr (mkVersionInfo true (Some "auth"%string)))
    (fun _ => inl (OtherException "RequestsApiError"))
    (fun _ _ => None)
    (inr stored_one)
    (inr stored_one)
    (fun _ _ => inr tt)
    (fun _ => inr tt)
    (fun _ => inr None)
    scope_of
    url_of.

(** The same stored credential with a server that answers with the three
    hubs. *)
Definition stored_env : Collaborators := env three_hubs "lab" stored_one.

(** A legacy server: the version endpoint does not report the new API;
    discovery finds one credential for it. *)
Definition legacy_env : Collaborators :=
  mkCollaborators
    (fun _ => inr (mkVersionInfo false None))
    (fun _ => inr (auth_client three_hubs))
    (fun _ _ => None)
    (inr [(unique_id legacy_credentials, legacy_credentials)])
    (inr [])
    (fun _ _ => inr tt)
    (fun _ => inr tt)
    (fun _ => inr None)
    scope_of
    url_of.

End Sample.

(** ** Notions for the further properties *)

Definition replaced_msg : string :=
  "Credentials are already in use. The existing account in the session will be replaced.".

Definition InvalidDiscovered : exn :=
  IBMQAccountCredentialsInvalidUrl
    (String.append "Invalid IBM Quantum Experience credentials found. "
                   UPDATE_ACCOUNT_TEXT).

Definition NoAccountInUse : exn :=
  IBMQAccountCredentialsNotFound
    "No IBM Quantum Experience account is in use for the session.".

(** The providers of the hub entries that construct, in the order of the
    hub list. *)
Definition constructed (env : Collaborators) (auth_client : AuthClient)
    (credentials : Credentials) (service_urls : ServiceUrls)
    (hubs : list HubInfo) : list AccountProvider :=
  flat_map
    (fun hub_info =>
       match construct env auth_client
               (hub_credentials env credentials service_urls hub_info) with
       | inr provider => [provider]
       | inl _ => []
       end)
    hubs.

(** A provider map as population builds it under the credential [c]: keys
    pairwise different, and each provider stored under the scope key of its
    own credentials, which carry the token, the proxies and the verify flag
    of [c]. *)
Definition scoped_under (c : Credentials)
    (item : HubGroupProject.t * AccountProvider) : Prop :=
  let pc := provider_credentials (snd item) in
  fst item = unique_id pc
  /\ token pc = token c /\ proxies pc = proxies c /\ verify pc = verify c.

Definition wellformed (self : IBMQFactory) : Prop :=
  NoDup (OrderedDict.keys (_providers self))
  /\ match _credentials self with
     | None => _providers self = []
     | Some c => Forall (scoped_under c) (_providers self)
     end.

(** The authentication client fails with [ex]: on construction, on the
    service urls, or on the hub list, whichever call comes first in
    [_initialize_providers]. *)
Definition auth_raises (env : Collaborators) (credentials : Credentials)
    (ex : exn) : Prop :=
  AuthClient_new env credentials = inl ex
  \/ exists auth_client : AuthClient,
       AuthClient_new env credentials = inr auth_client
       /\ (current_service_urls auth_client = inl ex
           \/ exists service_urls : ServiceUrls,
                current_service_urls auth_client = inr service_urls
                /\ user_hubs auth_client = inl ex).

(** The warning of the loop of [_initialize_providers], by its message. *)
Definition is_build_warning (r : LogRecord) : bool :=
  String.eqb (log_msg r) "Unable to instantiate provider for %s: %s".

Ltac step_monad :=
  unfold bind, reads, when, raise, call, ret, set_credentials,
    set_providers, logger_warning, _check_api_version;
  cbn [result final logged _credentials _providers is_active negb app].

(** * Properties *)

(** ** Equations of the monad *)

Lemma bind_unfold (A B : Type) (m : M A) (k : A -> M B)
    (self : IBMQFactory) :
  bind m k self =
  match result (m self) with
  | inl e => mkOutcome (inl e) (final (m self)) (logged (m self))
  | inr a =>
      mkOutcome (result (k a (final (m self))))
                (final (k a (final (m self))))
                (logged (m self) ++ logged (k a (final (m self))))
  end.
Proof. reflexivity. Qed.

Lemma bind_reads (A B : Type) (f : IBMQFactory -> A) (k : A -> M B)
    (self : IBMQFactory) :
  bind (reads f) k self = k (f self) self.
Proof. unfold bind, reads. simpl. now destruct (k (f self) self). Qed.

Lemma bind_call (A B : Type) (r : exn + A) (k : A -> M B)
    (self : IBMQFactory) :
  bind (call r) k self =
  match r with
  | inl e => mkOutcome (inl e) self []
  | inr a => k a self
  end.
Proof.
  unfold bind, call. simpl. destruct r as [e|a]; [reflexivity|].
  now destruct (k a self).
Qed.

Lemma bind_when_raise (B : Type) (b : bool) (e : exn) (k : unit -> M B)
    (self : IBMQFactory) :
  bind (when b (raise e)) k self =
  if b then mkOutcome (inl e) self [] else k tt self.
Proof.
  unfold bind, when, raise, ret. destruct b; simpl; [reflexivity|].
  now destruct (k tt self).
Qed.

(** ** Equality tests *)

Lemma opt_eqb_eq (a b : option string) : opt_eqb a b = true <-> a = b.
Proof.
  destruct a as [x|], b as [y|]; simpl; split; intro H;
    try discriminate; try reflexivity.
  - apply String.eqb_eq in H. now subst.
  - inversion H. apply String.eqb_refl.
Qed.

Lemma hgp_eqb_eq (a b : HubGroupProject.t) :
  HubGroupProject.eqb a b = true <-> a = b.
Proof.
  unfold HubGroupProject.eqb. destruct a as [h g p], b as [h' g' p']; simpl.
  rewrite !andb_true_iff, !opt_eqb_eq. split.
  - intros [[-> ->] ->]. reflexivity.
  - intros H. inversion H. auto.
Qed.

Lemma hgp_eqb_neq (a b : HubGroupProject.t) :
  HubGroupProject.eqb a b = false <-> a <> b.
Proof.
  rewrite <- hgp_eqb_eq. destruct (HubGroupProject.eqb a b); split;
    intro H; congruence.
Qed.

(** ** Ordered dictionaries *)

Lemma setitem_not_nil (V : Type) (k : HubGroupProject.t) (v : V)
    (d : OrderedDict.t V) :
  OrderedDict.setitem k v d <> [].
Proof.
  destruct d as [|[k' v'] d]; simpl; [discriminate|].
  destruct (HubGroupProject.eqb k' k); discriminate.
Qed.

Lemma setitem_fresh (V : Type) (k : HubGroupProject.t) (v : V)
    (d : OrderedDict.t V) :
  ~ In k (OrderedDict.keys d) ->
  OrderedDict.setitem k v d = d ++ [(k, v)].
Proof.
  induction d as [|[k' v'] d IH]; simpl; intros Hk; [reflexivity|].
  destruct (HubGroupProject.eqb k' k) eqn:E.
  - apply hgp_eqb_eq in E. tauto.
  - f_equal. apply IH. tauto.
Qed.

Lemma setitem_keys_present (V : Type) (k : HubGroupProject.t) (v : V)
    (d : OrderedDict.t V) :
  In k (OrderedDict.keys d) ->
  OrderedDict.keys (OrderedDict.setitem k v d) = OrderedDict.keys d.
Proof.
  induction d as [|[k' v'] d IH]; simpl; intros Hk; [tauto|].
  destruct (HubGroupProject.eqb k' k) eqn:E; simpl; [reflexivity|].
  f_equal. apply IH. apply hgp_eqb_neq in E. destruct Hk; congruence.
Qed.

(** ** Population of the provider map *)

Section Population.

Variable env : Collaborators.
Variable auth_client : AuthClient.
Variable credentials : Credentials.
Variable service_urls : ServiceUrls.

(** One round of the loop never raises: it stores the provider or logs
    the exception. *)
Lemma build_provider_outcome (hub_info : HubInfo) (self : IBMQFactory) :
  build_provider env auth_client credentials service_urls hub_info self =
  mkOutcome (inr tt)
    (mkFactory (_credentials self)
       (populate env auth_client credentials service_urls [hub_info]
                 (_providers self)))
    (failures env auth_client credentials service_urls [hub_info]).
Proof.
  unfold build_provider, populate, failures, construct, try_except, bind,
    call, reads, set_providers, logger_warning; simpl.
  destruct (current_access_token auth_client) as [ex|tok]; simpl.
  - destruct self; reflexivity.
  - destruct (AccountProvider_raises env _ tok) as [ex|]; simpl.
    + destruct self; reflexivity.
    + reflexivity.
Qed.

Lemma populate_cons (h : HubInfo) (hubs : list HubInfo)
    (d : OrderedDict.t AccountProvider) :
  populate env auth_client credentials service_urls (h :: hubs) d =
  populate env auth_client credentials service_urls hubs
    (populate env auth_client credentials service_urls [h] d).
Proof. reflexivity. Qed.

Lemma failures_cons (h : HubInfo) (hubs : list HubInfo) :
  failures env auth_client credentials service_urls (h :: hubs) =
  failures env auth_client credentials service_urls [h] ++
  failures env auth_client credentials service_urls hubs.
Proof. unfold failures. simpl. now rewrite app_nil_r. Qed.

(** The whole loop: it returns, keeps [_credentials], and leaves the map
    and the log that [populate] and [failures] describe. *)
Lemma for_each_build_provider (hubs : list HubInfo) :
  forall self : IBMQFactory,
    for_each hubs
      (build_provider env auth_client credentials service_urls) self =
    mkOutcome (inr tt)
      (mkFactory (_credentials self)
         (populate env auth_client credentials service_urls hubs
                   (_providers self)))
      (failures env auth_client credentials service_urls hubs).
Proof.
  induction hubs as [|h hubs IH]; intros self.
  - destruct self; reflexivity.
  - cbn [for_each]. unfold bind at 1.
    rewrite build_provider_outcome. cbn [result final logged].
    rewrite IH. cbn [result final logged _credentials _providers].
    rewrite (populate_cons h hubs), (failures_cons h hubs). reflexivity.
Qed.

(** Entries that fail can be dropped from the hub list without changing
    the map. *)
Lemma populate_skips_failures (hubs : list HubInfo) :
  forall d : OrderedDict.t AccountProvider,
    populate env auth_client credentials service_urls hubs d =
    populate env auth_client credentials service_urls
      (filter (constructs env auth_client credentials service_urls) hubs) d.
Proof.
  induction hubs as [|h hubs IH]; intros d; [reflexivity|].
  rewrite (populate_cons h hubs), IH. cbn [filter].
  destruct (construct env auth_client
              (hub_credentials env credentials service_urls h)) as [ex|p] eqn:E.
  - replace (constructs env auth_client credentials service_urls h)
      with false by (unfold constructs; now rewrite E).
    unfold populate at 2. simpl. rewrite E. reflexivity.
  - replace (constructs env auth_client credentials service_urls h)
      with true by (unfold constructs; now rewrite E).
    rewrite (populate_cons h (filter _ hubs)). reflexivity.
Qed.

Lemma failures_length (hubs : list HubInfo) :
  List.length (failures env auth_client credentials service_urls hubs) =
  List.length
    (filter (fun h => negb (constructs env auth_client credentials
                                       service_urls h)) hubs).
Proof.
  induction hubs as [|h hubs IH]; [reflexivity|].
  rewrite (failures_cons h hubs), length_app, IH. cbn [filter].
  destruct (construct env auth_client
              (hub_credentials env credentials service_urls h)) as [ex|p] eqn:E.
  - replace (constructs env auth_client credentials service_urls h)
      with false by (unfold constructs; now rewrite E).
    unfold failures. simpl. now rewrite E.
  - replace (constructs env auth_client credentials service_urls h)
      with true by (unfold constructs; now rewrite E).
    unfold failures. simpl. now rewrite E.
Qed.

(** With pairwise different scope keys, none of them in the map yet,
    population appends one entry per hub entry that constructs. *)
Lemma populate_keys_fresh (hubs : list HubInfo) :
  forall d : OrderedDict.t AccountProvider,
    NoDup (map (stored_key env credentials service_urls) hubs) ->
    (forall h, In h hubs ->
       ~ In (stored_key env credentials service_urls h)
            (OrderedDict.keys d)) ->
    OrderedDict.keys
      (populate env auth_client credentials service_urls hubs d) =
    OrderedDict.keys d ++
    map (stored_key env credentials service_urls)
      (filter (constructs env auth_client credentials service_urls) hubs).
Proof.
  induction hubs as [|h hubs IH]; intros d Hnd Hfresh.
  - simpl. now rewrite app_nil_r.
  - rewrite (populate_cons h hubs). cbn [filter].
    inversion Hnd as [|? ? Hh Hnd']; subst.
    unfold populate at 2. cbn [fold_left].
    destruct (construct env auth_client
                (hub_credentials env credentials service_urls h))
      as [ex|p] eqn:E.
    all: [> replace (constructs env auth_client credentials service_urls h)
              with false by (unfold constructs; now rewrite E)
          | replace (constructs env auth_client credentials service_urls h)
              with true by (unfold constructs; now rewrite E) ].
    + apply IH; [assumption|]. intros h' Hin. apply Hfresh. now right.
    + rewrite setitem_fresh by (apply Hfresh; now left).
      rewrite IH; [|assumption|].
      * unfold OrderedDict.keys. rewrite map_app. simpl.
        now rewrite <- app_assoc.
      * intros h' Hin. unfold OrderedDict.keys. rewrite map_app, in_app_iff.
        simpl. intros [Hd|[Heq|[]]].
        -- revert Hd. apply Hfresh. now right.
        -- apply Hh.
           change (stored_key env credentials service_urls h =
                   stored_key env credentials service_urls h') in Heq.
           rewrite Heq. now apply in_map.
Qed.

End Population.

(** ** Outcomes of the methods *)

(** [_initialize_providers] raises what the authentication client raises,
    before it touches the object; otherwise it returns after the loop. *)
Lemma initialize_providers_outcome (env : Collaborators)
    (credentials : Credentials) (self : IBMQFactory) :
  _initialize_providers env credentials self =
  match AuthClient_new env credentials with
  | inl ex => mkOutcome (inl ex) self []
  | inr auth_client =>
      match current_service_urls auth_client with
      | inl ex => mkOutcome (inl ex) self []
      | inr service_urls =>
          match user_hubs auth_client with
          | inl ex => mkOutcome (inl ex) self []
          | inr hubs =>
              mkOutcome (inr tt)
                (mkFactory (Some credentials)
                   (populate env auth_client credentials service_urls hubs
                             (_providers self)))
                (failures env auth_client credentials service_urls hubs)
          end
      end
  end.
Proof.
  unfold _initialize_providers. step_monad.
  destruct (AuthClient_new env credentials) as [ex|ac]; [reflexivity|].
  step_monad.
  destruct (current_service_urls ac) as [ex|urls]; [reflexivity|].
  step_monad.
  destruct (user_hubs ac) as [ex|hubs]; [reflexivity|].
  step_monad. rewrite for_each_build_provider. reflexivity.
Qed.

Lemma first_provider_outcome (self : IBMQFactory) :
  first_provider self =
  match providers self None None None with
  | [] => mkOutcome (inr None) self [warning no_hubs_msg []]
  | p :: _ => mkOutcome (inr (Some p)) self []
  end.
Proof.
  unfold first_provider. step_monad.
  destruct (providers self None None None); reflexivity.
Qed.

(** Without filters, [providers] lists the values of the map. *)
Lemma providers_no_filter (self : IBMQFactory) :
  providers self None None None = OrderedDict.values (_providers self).
Proof.
  unfold providers, OrderedDict.values, OrderedDict.items. simpl.
  f_equal. induction (_providers self) as [|x d IH]; simpl; congruence.
Qed.

Lemma moved_invariant (self self' : IBMQFactory) :
  moved self self' -> session_invariant self -> session_invariant self'.
Proof.
  unfold session_invariant.
  intros [->|[->|H]] Hinv; [assumption| |intros _; assumption].
  simpl. intros H. now contradict H.
Qed.

Lemma initialize_providers_moved (env : Collaborators)
    (credentials : Credentials) (self : IBMQFactory) :
  final (_initialize_providers env credentials self) = self \/
  _credentials (final (_initialize_providers env credentials self)) =
    Some credentials.
Proof.
  rewrite initialize_providers_outcome.
  destruct (AuthClient_new env credentials) as [ex|ac]; [now left|].
  destruct (current_service_urls ac) as [ex|urls]; [now left|].
  destruct (user_hubs ac) as [ex|hubs]; [now left|].
  now right.
Qed.

Lemma first_provider_final (self : IBMQFactory) :
  final (first_provider self) = self.
Proof.
  rewrite first_provider_outcome.
  destruct (providers self None None None); reflexivity.
Qed.

Lemma disable_account_outcome (self : IBMQFactory) :
  disable_account self =
  match _credentials self with
  | Some _ => mkOutcome (inr tt) init []
  | None =>
      mkOutcome
        (inl (IBMQAccountCredentialsNotFound
           "No IBM Quantum Experience account is in use for the session."))
        self []
  end.
Proof.
  unfold disable_account. step_monad.
  destruct (_credentials self); reflexivity.
Qed.

Lemma enable_account_active (env : Collaborators) (token : pyval)
    (url : string) (kwargs : Kwargs) (self : IBMQFactory) :
  _credentials self <> None ->
  enable_account env token url kwargs self =
  mkOutcome (inl AlreadyActive) self [].
Proof.
  intros Hc. unfold enable_account. rewrite bind_reads. cbv beta.
  destruct (_credentials self) as [c|]; [|congruence].
  cbn [is_active]. now rewrite bind_when_raise.
Qed.

(** What [enable_account] does on an object without credential, by the
    answers of the version endpoint and of the authentication client. *)
Lemma enable_account_inactive (env : Collaborators) (token : pyval)
    (url : string) (kwargs : Kwargs) (self : IBMQFactory) :
  _credentials self = None ->
  let credentials := Credentials_of token url kwargs in
  enable_account env token url kwargs self =
  match VersionClient_version env credentials with
  | inl ex => mkOutcome (inl ex) self []
  | inr v =>
      if reports_new_api_auth v then
        let o := _initialize_providers env credentials self in
        match result o with
        | inl ex => mkOutcome (inl ex) (final o) (logged o)
        | inr _ =>
            mkOutcome (result (first_provider (final o))) (final o)
                      (logged o ++ logged (first_provider (final o)))
        end
      else
        mkOutcome
          (inl (IBMQAccountCredentialsInvalidUrl
                  (invalid_url_msg credentials)))
          self []
  end.
Proof.
  intros Hc credentials. unfold enable_account.
  rewrite bind_reads. cbv beta. rewrite Hc. cbn [is_active].
  rewrite bind_when_raise. cbv beta iota zeta. fold credentials.
  unfold _check_api_version. rewrite bind_call.
  destruct (VersionClient_version env credentials) as [ex|v];
    [reflexivity|].
  rewrite bind_when_raise. unfold reports_new_api_auth.
  destruct (new_api v), (api_auth v); cbn [negb orb andb];
    try reflexivity.
  rewrite bind_unfold.
  destruct (result (_initialize_providers env credentials self));
    [reflexivity|].
  now rewrite first_provider_final.
Qed.

Lemma enable_account_moved (env : Collaborators) (token : pyval)
    (url : string) (kwargs : Kwargs) (self : IBMQFactory) :
  moved self (final (enable_account env token url kwargs self)).
Proof.
  unfold moved. destruct (_credentials self) as [c|] eqn:Hc.
  - rewrite enable_account_active by congruence. now left.
  - rewrite (enable_account_inactive env token url kwargs self Hc).
    cbv zeta.
    destruct (VersionClient_version env _) as [ex|v]; [now left|].
    destruct (reports_new_api_auth v); [|now left].
    destruct (initialize_providers_moved env
                (Credentials_of token url kwargs) self) as [H|H];
      destruct (result (_initialize_providers env _ self));
      cbn [final].
    + now left.
    + now left.
    + right; right. congruence.
    + right; right. congruence.
Qed.

(** The replacement of the account in use, as [load_account] does it:
    the warning, then [disable_account]. *)
Lemma replace_account_outcome (msg : string) (args : list log_arg)
    (self : IBMQFactory) :
  (logger_warning msg args ;; disable_account) self =
  match _credentials self with
  | Some _ => mkOutcome (inr tt) init [warning msg args]
  | None =>
      mkOutcome
        (inl (IBMQAccountCredentialsNotFound
           "No IBM Quantum Experience account is in use for the session."))
        self [warning msg args]
  end.
Proof.
  rewrite bind_unfold. unfold logger_warning.
  cbn [result final logged]. rewrite disable_account_outcome.
  destruct (_credentials self); reflexivity.
Qed.

Lemma load_account_moved (env : Collaborators) (self : IBMQFactory) :
  moved self (final (load_account env self)).
Proof.
  unfold load_account, moved. rewrite bind_call.
  destruct (discover_credentials env) as [ex|discovered]; [now left|].
  cbv zeta.
  destruct (OrderedDict.values discovered) as [|credentials rest];
    [now left|].
  rewrite bind_when_raise. destruct (1 <? _); [now left|].
  unfold _check_api_version. rewrite bind_call.
  destruct (VersionClient_version env credentials) as [ex|v]; [now left|].
  rewrite bind_when_raise. destruct (negb (new_api v) || _); [now left|].
  rewrite bind_reads. cbv beta. rewrite bind_unfold.
  destruct (_credentials self) as [c|] eqn:Hc; cbn [is_active when].
  - rewrite replace_account_outcome, Hc. cbn [result final logged].
    rewrite bind_unfold.
    destruct (initialize_providers_moved env credentials init) as [H|H];
      destruct (result (_initialize_providers env credentials init));
      cbn [final]; rewrite ?first_provider_final.
    + right; now left.
    + right; now left.
    + right; right. congruence.
    + right; right. congruence.
  - cbn [ret result final logged]. rewrite bind_unfold.
    destruct (initialize_providers_moved env credentials self) as [H|H];
      destruct (result (_initialize_providers env credentials self));
      cbn [final]; rewrite ?first_provider_final.
    + now left.
    + now left.
    + right; right. congruence.
    + right; right. congruence.
Qed.

Lemma disable_account_moved (self : IBMQFactory) :
  moved self (final (disable_account self)).
Proof.
  rewrite disable_account_outcome. unfold moved.
  destruct (_credentials self); simpl; auto.
Qed.

(** [get_provider] decides on the length of what [providers] returns and
    leaves the object alone. *)
Lemma get_provider_outcome (hub group project : option string)
    (self : IBMQFactory) :
  get_provider hub group project self =
  match providers self hub group project with
  | [] => mkOutcome (inl NoMatchingProvider) self []
  | [p] => mkOutcome (inr p) self []
  | _ :: _ :: _ => mkOutcome (inl AmbiguousProvider) self []
  end.
Proof.
  unfold get_provider. rewrite bind_reads. cbv beta.
  rewrite bind_when_raise.
  destruct (providers self hub group project) as [|p [|q l]];
    [reflexivity| |]; now rewrite bind_when_raise.
Qed.

Lemma exec_moved (env : Collaborators) (r : request) (self : IBMQFactory) :
  moved self (exec env r self).
Proof.
  destruct r; cbn [exec]; try (now left).
  - apply enable_account_moved.
  - apply disable_account_moved.
  - apply load_account_moved.
  - rewrite get_provider_outcome.
    destruct (providers self hub group project) as [|p [|q l]]; now left.
Qed.

Lemma run_invariant (calls : list (Collaborators * request)) :
  forall self : IBMQFactory,
    session_invariant self -> session_invariant (run calls self).
Proof.
  induction calls as [|[env r] calls IH]; intros self Hinv; [assumption|].
  cbn [run fold_left fst snd]. apply IH. eapply moved_invariant; [apply exec_moved|assumption].
Qed.

Lemma init_invariant : session_invariant init.
Proof. intros H. now contradict H. Qed.

(** ** Filtering of providers *)

(** The closures installed by [providers] amount to one test on the key:
    agreement with every argument that is neither [None] nor empty. *)
Lemma providers_select (self : IBMQFactory)
    (hub group project : option string) :
  providers self hub group project =
  select (matches_non_empty hub group project) (_providers self).
Proof.
  unfold providers, select, OrderedDict.values, OrderedDict.items.
  f_equal. apply filter_ext. intros [key provider].
  unfold matches_non_empty. cbn [fst].
  destruct (truthy_opt hub), (truthy_opt group), (truthy_opt project);
    cbn [app forallb];
    destruct (opt_eqb (HubGroupProject.hub key) hub),
             (opt_eqb (HubGroupProject.group key) group),
             (opt_eqb (HubGroupProject.project key) project);
    reflexivity.
Qed.

(** * The claims *)

(** C1.  In every state a session can reach from a fresh factory, the
    provider map is non-empty only if a credential is active;
    [disable_account] on an active credential returns and leaves, in one
    step, the object without credential and with an empty map; and every
    operation, run on any object that satisfies the invariant and with any
    answers of the collaborators, leaves an object that satisfies it,
    whether the operation returns or raises. *)
Theorem session_invariant_preserved :
  (forall calls : list (Collaborators * request),
      session_invariant (run calls init))
  /\ (forall (self : IBMQFactory) (c : Credentials),
         _credentials self = Some c ->
         disable_account self =
         mkOutcome (inr tt) (mkFactory None OrderedDict.empty) [])
  /\ (forall (env : Collaborators) (r : request) (self : IBMQFactory),
         session_invariant self -> session_invariant (exec env r self)).
Proof.
  split; [|split].
  - intros calls. apply run_invariant, init_invariant.
  - intros self c Hc. rewrite disable_account_outcome, Hc. reflexivity.
  - intros env r self Hinv.
    eapply moved_invariant; [apply exec_moved|assumption].
Qed.

(** C2, as the code has it.  [providers] returns the providers whose scope
    key agrees with every filter that is neither null nor the empty string,
    in the order of the provider map; without filters it returns every
    provider of the map, in that order. *)
Theorem providers_filters_non_empty :
  forall (self : IBMQFactory) (hub group project : option string),
    providers self hub group project =
    select (matches_non_empty hub group project) (_providers self)
    /\ providers self None None None = OrderedDict.values (_providers self).
Proof.
  intros self hub group project. split.
  - apply providers_select.
  - apply providers_no_filter.
Qed.

(** C2, as the specification words it, fails: with the empty string as
    hub, a supplied and non-null filter, [providers] does not return the
    providers whose hub is the empty string (there is none) but both
    providers of the session. *)
Lemma providers_empty_hub_not_a_filter :
  select (matches_non_null (Some EmptyString) None None)
         (_providers Sample.enabled) = []
  /\ List.length (providers Sample.enabled (Some EmptyString) None None) = 2
  /\ providers Sample.enabled (Some EmptyString) None None <>
     select (matches_non_null (Some EmptyString) None None)
            (_providers Sample.enabled).
Proof.
  split; [reflexivity|]. split; [reflexivity|]. discriminate.
Qed.

(** C10.  An empty string for hub, group or project installs no filter:
    the call returns what it returns with that argument omitted, so
    [providers(hub='')] returns every provider of the map. *)
Theorem providers_empty_string_omitted :
  forall (self : IBMQFactory) (hub group project : option string),
    providers self (Some EmptyString) group project =
      providers self None group project
    /\ providers self hub (Some EmptyString) project =
         providers self hub None project
    /\ providers self hub group (Some EmptyString) =
         providers self hub group None
    /\ providers self (Some EmptyString) None None =
         OrderedDict.values (_providers self).
Proof.
  intros self hub group project.
  repeat split; try reflexivity.
  apply (providers_no_filter self).
Qed.

(** C3.  [get_provider] counts the providers that match the filters (those
    [providers] returns): with none it raises [IBMQProviderError] with the
    message of no match, with two or more it raises it with the message of
    more than one match, with exactly one it returns that provider; the
    object is left as it was. *)
Theorem get_provider_unique_match :
  forall (self : IBMQFactory) (hub group project : option string),
    let matching :=
      select (matches_non_empty hub group project) (_providers self) in
    (List.length matching = 0 ->
       get_provider hub group project self =
       mkOutcome (inl NoMatchingProvider) self [])
    /\ (2 <= List.length matching ->
          get_provider hub group project self =
          mkOutcome (inl AmbiguousProvider) self [])
    /\ (forall p : AccountProvider, matching = [p] ->
          get_provider hub group project self = mkOutcome (inr p) self [])
    /\ matching = providers self hub group project.
Proof.
  intros self hub group project matching.
  assert (E : providers self hub group project = matching)
    by apply providers_select.
  rewrite get_provider_outcome, E.
  repeat split.
  - destruct matching; [reflexivity|discriminate].
  - destruct matching as [|p [|q l]]; simpl; intros H;
      [lia|lia|reflexivity].
  - intros p ->. reflexivity.
Qed.

Lemma get_provider_unique_match_witness :
  get_provider (Some "partner"%string) None None Sample.enabled =
    mkOutcome (inl NoMatchingProvider) Sample.enabled []
  /\ get_provider (Some "ibm-q"%string) None None Sample.enabled =
       mkOutcome (inl AmbiguousProvider) Sample.enabled []
  /\ result (get_provider None (Some "open"%string) None Sample.enabled) =
       inr (Sample.provider_for Sample.open_main).
Proof.
  split; [|split].
  - apply (proj1 (get_provider_unique_match Sample.enabled
                    (Some "partner"%string) None None)).
    reflexivity.
  - apply (proj1 (proj2 (get_provider_unique_match Sample.enabled
                           (Some "ibm-q"%string) None None))).
    simpl. lia.
  - rewrite (proj1 (proj2 (proj2 (get_provider_unique_match Sample.enabled
                                    None (Some "open"%string) None)))
                   (Sample.provider_for Sample.open_main) eq_refl).
    reflexivity.
Defined.

Lemma session_invariant_preserved_witness :
  session_invariant
    (run [(Sample.three_env,
           EnableAccount Sample.api_token QX_AUTH_URL Sample.kwargs);
          (Sample.three_env, GetProvider None None None);
          (Sample.env [] "none" [], LoadAccount);
          (Sample.three_env, DisableAccount)] init)
  /\ final (disable_account Sample.enabled) = init.
Proof.
  split.
  - apply (proj1 session_invariant_preserved).
  - rewrite (proj1 (proj2 session_invariant_preserved) Sample.enabled
                   Sample.credentials eq_refl).
    reflexivity.
Defined.

(** ** Enabling an account *)

Lemma initialize_providers_returns (env : Collaborators)
    (credentials : Credentials) (self : IBMQFactory) (u : unit) :
  result (_initialize_providers env credentials self) = inr u ->
  _credentials (final (_initialize_providers env credentials self)) =
  Some credentials.
Proof.
  rewrite initialize_providers_outcome.
  destruct (AuthClient_new env credentials) as [ex|ac]; [discriminate|].
  destruct (current_service_urls ac) as [ex|urls]; [discriminate|].
  destruct (user_hubs ac) as [ex|hubs]; [discriminate|].
  reflexivity.
Qed.

Lemma enable_account_returns_active (env : Collaborators) (token : pyval)
    (url : string) (kwargs : Kwargs) (self : IBMQFactory)
    (p : option AccountProvider) :
  result (enable_account env token url kwargs self) = inr p ->
  _credentials (final (enable_account env token url kwargs self)) <> None.
Proof.
  destruct (_credentials self) as [c|] eqn:Hc.
  - rewrite enable_account_active by congruence. discriminate.
  - rewrite (enable_account_inactive env token url kwargs self Hc).
    cbv zeta.
    destruct (VersionClient_version env _) as [ex|v]; [discriminate|].
    destruct (reports_new_api_auth v); [|discriminate].
    destruct (result (_initialize_providers env _ self)) as [ex|u] eqn:E;
      [discriminate|].
    intros _. cbn [final].
    rewrite (initialize_providers_returns _ _ _ E). discriminate.
Qed.

Lemma exec_keeps_active (env : Collaborators) (r : request)
    (self : IBMQFactory) :
  keeps_account r = true ->
  _credentials self <> None -> _credentials (exec env r self) <> None.
Proof.
  intros Hr Hc. destruct r; try discriminate; cbn [exec]; try assumption.
  - now rewrite enable_account_active.
  - rewrite get_provider_outcome.
    destruct (providers self hub group project) as [|p [|q l]]; assumption.
Qed.

Lemma run_keeps_active (calls : list (Collaborators * request)) :
  forall self : IBMQFactory,
    forallb (fun c => keeps_account (snd c)) calls = true ->
    _credentials self <> None -> _credentials (run calls self) <> None.
Proof.
  induction calls as [|[env r] calls IH]; intros self Hk Hc; [assumption|].
  simpl in Hk. apply andb_true_iff in Hk as [Hr Hk].
  simpl. apply IH; [assumption|]. now apply exec_keeps_active.
Qed.

(** C4.  On an object with an active credential, every call of
    [enable_account], whatever its arguments and whatever the collaborators
    would answer, raises [IBMQAccountError] (account already in use) and
    leaves the object unchanged, with nothing logged.  In particular this is
    so after an [enable_account] that returned, followed by any calls that
    do not reach [disable_account]. *)
Theorem enable_account_already_active :
  forall (env : Collaborators) (token : pyval) (url : string)
         (kwargs : Kwargs),
    (forall self : IBMQFactory,
        _credentials self <> None ->
        enable_account env token url kwargs self =
        mkOutcome (inl AlreadyActive) self [])
    /\ (forall (env0 : Collaborators) (token0 : pyval) (url0 : string)
               (kwargs0 : Kwargs) (self0 : IBMQFactory)
               (p : option AccountProvider)
               (calls : list (Collaborators * request)),
          result (enable_account env0 token0 url0 kwargs0 self0) = inr p ->
          forallb (fun c => keeps_account (snd c)) calls = true ->
          let self :=
            run calls (final (enable_account env0 token0 url0 kwargs0 self0))
          in
          enable_account env token url kwargs self =
          mkOutcome (inl AlreadyActive) self []).
Proof.
  intros env token url kwargs. split.
  - intros self Hc. now apply enable_account_active.
  - intros env0 token0 url0 kwargs0 self0 p calls Hp Hk self.
    apply enable_account_active. apply run_keeps_active; [assumption|].
    eapply enable_account_returns_active; eassumption.
Qed.

Lemma enable_account_already_active_witness :
  result (enable_account (Sample.env [Sample.open_main] "none" [])
            Sample.api_token QX_AUTH_URL Sample.kwargs Sample.enabled)
  = inl AlreadyActive
  /\ final (enable_account (Sample.env [Sample.open_main] "none" [])
              Sample.api_token QX_AUTH_URL Sample.kwargs Sample.enabled)
     = Sample.enabled.
Proof.
  rewrite (proj1 (enable_account_already_active
                    (Sample.env [Sample.open_main] "none" [])
                    Sample.api_token QX_AUTH_URL Sample.kwargs)
                 Sample.enabled);
    [split; reflexivity | discriminate].
Defined.

(** ** Loading, saving, deleting and reading the stored account *)

(** C5.  When discovery answers with no credential, [load_account] raises
    [IBMQAccountCredentialsNotFound]; when it answers with more than one,
    [load_account] raises [IBMQAccountMultipleCredentialsFound]; either way
    the object is unchanged and nothing is logged. *)
Theorem load_account_discovery_errors :
  forall (env : Collaborators) (self : IBMQFactory)
         (discovered : OrderedDict.t Credentials),
    discover_credentials env = inr discovered ->
    (OrderedDict.len discovered = 0 ->
       load_account env self = mkOutcome (inl NotFound) self [])
    /\ (1 < OrderedDict.len discovered ->
          load_account env self = mkOutcome (inl MultipleFound) self []).
Proof.
  intros env self discovered Hd. unfold load_account.
  rewrite bind_call, Hd. cbv zeta.
  unfold OrderedDict.values, OrderedDict.len.
  split; intros Hlen.
  - destruct discovered; [reflexivity|discriminate].
  - destruct discovered as [|[k c] [|[k' c'] rest]]; cbn [List.length] in Hlen;
      [lia|lia|].
    cbn [map snd]. now rewrite bind_when_raise.
Qed.

Lemma load_account_discovery_errors_witness :
  load_account (Sample.env [] "none" []) Sample.enabled =
    mkOutcome (inl NotFound) Sample.enabled []
  /\ load_account
       (Sample.env [] "none"
          [(unique_id Sample.credentials, Sample.credentials);
           (unique_id Sample.legacy_credentials, Sample.legacy_credentials)])
       Sample.enabled =
     mkOutcome (inl MultipleFound) Sample.enabled [].
Proof.
  split.
  - apply (load_account_discovery_errors
             (Sample.env [] "none" []) Sample.enabled eq_refl).
    reflexivity.
  - apply (load_account_discovery_errors
             (Sample.env [] "none" _) Sample.enabled eq_refl).
    simpl. lia.
Defined.

Lemma nonempty_str_checks (token : pyval) :
  negb (truthy token) || negb (isinstance_str token) = false <->
  nonempty_str token.
Proof.
  unfold nonempty_str. split.
  - destruct token as [| b | z | s | b]; simpl;
      rewrite ?orb_true_r; try discriminate.
    rewrite orb_false_r, negb_involutive. intros H.
    exists s. split; [reflexivity|]. now apply String.eqb_neq.
  - intros [s [-> Hs]]. simpl. apply String.eqb_neq in Hs.
    now rewrite Hs.
Qed.

(** C6.  [save_account] with a url other than the canonical authentication
    URL raises [IBMQAccountCredentialsInvalidUrl], whatever the token; with
    the canonical url it raises [IBMQAccountCredentialsInvalidToken] when
    the token is not a non-empty string, and otherwise raises nothing of
    its own: it hands the credentials to the store, so that it fails with an
    invalid token exactly when the token is not a non-empty string (the
    store itself not raising that exception). *)
Theorem save_account_validation :
  forall (env : Collaborators) (token : pyval) (url : string)
         (overwrite : bool) (kwargs : Kwargs),
    (url <> QX_AUTH_URL ->
       save_account env token url overwrite kwargs = inl InvalidUrlToSave)
    /\ (url = QX_AUTH_URL -> ~ nonempty_str token ->
          save_account env token url overwrite kwargs =
          inl (IBMQAccountCredentialsInvalidToken token))
    /\ (url = QX_AUTH_URL -> nonempty_str token ->
          save_account env token url overwrite kwargs =
          store_credentials env (Credentials_of token url kwargs) overwrite)
    /\ (url = QX_AUTH_URL ->
          (forall c tok, store_credentials env c overwrite <>
                         inl (IBMQAccountCredentialsInvalidToken tok)) ->
          ((exists tok, save_account env token url overwrite kwargs =
                        inl (IBMQAccountCredentialsInvalidToken tok))
           <-> ~ nonempty_str token)).
Proof.
  intros env token url overwrite kwargs. unfold save_account.
  destruct (String.eqb url QX_AUTH_URL) eqn:Hu; cbn [negb].
  - apply String.eqb_eq in Hu.
    destruct (negb (truthy token) || negb (isinstance_str token)) eqn:Ht.
    + assert (Hn : ~ nonempty_str token).
      { intros H. apply nonempty_str_checks in H. congruence. }
      split; [congruence|]. split; [reflexivity|].
      split; [tauto|]. intros _ _. split; [tauto|].
      intros _. now exists token.
    + assert (Hn : nonempty_str token) by now apply nonempty_str_checks.
      split; [congruence|]. split; [tauto|].
      split; [reflexivity|]. intros _ Hstore. split; [|tauto].
      intros [tok Htok]. exfalso. exact (Hstore _ _ Htok).
  - apply String.eqb_neq in Hu.
    split; [reflexivity|]. repeat split; congruence.
Qed.

Lemma save_account_validation_witness :
  save_account (Sample.env [] "none" []) Sample.api_token
    "https://quantumexperience.ng.bluemix.net/api" false Sample.kwargs =
    inl InvalidUrlToSave
  /\ save_account (Sample.env [] "none" []) (PyStr EmptyString)
       QX_AUTH_URL false Sample.kwargs =
     inl (IBMQAccountCredentialsInvalidToken (PyStr EmptyString))
  /\ save_account (Sample.env [] "none" []) (PyInt 42)
       QX_AUTH_URL false Sample.kwargs =
     inl (IBMQAccountCredentialsInvalidToken (PyInt 42))
  /\ save_account (Sample.env [] "none" []) Sample.api_token
       QX_AUTH_URL false Sample.kwargs = inr tt.
Proof.
  split; [|split; [|split]].
  - apply (proj1 (save_account_validation (Sample.env [] "none" [])
                    Sample.api_token _ false Sample.kwargs)).
    discriminate.
  - apply (proj1 (proj2 (save_account_validation (Sample.env [] "none" [])
                           (PyStr EmptyString) QX_AUTH_URL false
                           Sample.kwargs)) eq_refl).
    intros [s [Hs Hne]]. inversion Hs. congruence.
  - apply (proj1 (proj2 (save_account_validation (Sample.env [] "none" [])
                           (PyInt 42) QX_AUTH_URL false
                           Sample.kwargs)) eq_refl).
    intros [s [Hs Hne]]. discriminate.
  - rewrite (proj1 (proj2 (proj2 (save_account_validation
               (Sample.env [] "none" []) Sample.api_token QX_AUTH_URL false
               Sample.kwargs))) eq_refl); [reflexivity|].
    exists "0123abcd"%string. split; [reflexivity|discriminate].
Defined.

(** C8, as the code has it.  With the credentials the disk holds:
    none, [delete_account] raises [IBMQAccountCredentialsNotFound] and
    [stored_account] returns the empty dictionary; more than one, both raise
    [IBMQAccountMultipleCredentialsFound]; exactly one, with a url other
    than the canonical authentication URL, both raise
    [IBMQAccountCredentialsInvalidUrl]. *)
Theorem stored_credentials_checks :
  forall (env : Collaborators) (stored : OrderedDict.t Credentials),
    read_credentials_from_qiskitrc env = inr stored ->
    (OrderedDict.len stored = 0 ->
       delete_account env = inl NotFoundOnDisk
       /\ stored_account env = inr None)
    /\ (1 < OrderedDict.len stored ->
          delete_account env =
            inl (IBMQAccountMultipleCredentialsFound multiple_disk_msg)
          /\ stored_account env =
               inl (IBMQAccountMultipleCredentialsFound multiple_disk_msg))
    /\ (forall (k : HubGroupProject.t) (c : Credentials),
          stored = [(k, c)] -> url c <> QX_AUTH_URL ->
          delete_account env =
            inl (IBMQAccountCredentialsInvalidUrl invalid_disk_msg)
          /\ stored_account env =
               inl (IBMQAccountCredentialsInvalidUrl invalid_disk_msg)).
Proof.
  intros env stored Hr. unfold delete_account, stored_account.
  rewrite Hr. unfold OrderedDict.values, OrderedDict.len.
  split; [|split].
  - intros Hlen. destruct stored; [now split|discriminate].
  - intros Hlen.
    destruct stored as [|[k c] [|[k' c'] rest]]; cbn [List.length] in Hlen;
      [lia|lia|now split].
  - intros k c -> Hu. cbn [map snd List.length Nat.eqb Nat.ltb Nat.leb negb].
    apply String.eqb_neq in Hu. rewrite Hu. now split.
Qed.

Lemma stored_credentials_checks_witness :
  delete_account
    (Sample.env [] "none"
       [(unique_id Sample.legacy_credentials, Sample.legacy_credentials)]) =
    inl (IBMQAccountCredentialsInvalidUrl invalid_disk_msg)
  /\ stored_account
       (Sample.env [] "none"
          [(unique_id Sample.legacy_credentials,
            Sample.legacy_credentials)]) =
     inl (IBMQAccountCredentialsInvalidUrl invalid_disk_msg).
Proof.
  apply (proj2 (proj2 (stored_credentials_checks
                         (Sample.env [] "none" _) eq_refl))
               _ _ eq_refl).
  discriminate.
Defined.

(** C8, as the specification words it, fails for [stored_account]: with no
    credential on disk it raises nothing and returns the empty
    dictionary. *)
Lemma stored_account_empty_disk_returns :
  read_credentials_from_qiskitrc (Sample.env [] "none" []) = inr []
  /\ stored_account (Sample.env [] "none" []) = inr None
  /\ ~ (exists ex : exn, stored_account (Sample.env [] "none" []) = inl ex).
Proof.
  split; [reflexivity|]. split; [reflexivity|].
  intros [ex H]. discriminate.
Qed.

(** ** Enabling an account on a fresh session *)

Lemma invariant_inactive_empty (self : IBMQFactory) :
  session_invariant self -> _credentials self = None -> _providers self = [].
Proof.
  unfold session_invariant. intros Hinv Hc.
  destruct (_providers self) as [|x d]; [reflexivity|].
  exfalso. apply Hinv; [discriminate|assumption].
Qed.

(** The outcome of [enable_account] once the version endpoint reports the
    new API and the authentication client answers. *)
Lemma enable_account_populates (env : Collaborators) (token : pyval)
    (url : string) (kwargs : Kwargs) (self : IBMQFactory)
    (v : VersionInfo) (auth_client : AuthClient)
    (service_urls : ServiceUrls) (hubs : list HubInfo) :
  let credentials := Credentials_of token url kwargs in
  _credentials self = None ->
  VersionClient_version env credentials = inr v ->
  reports_new_api_auth v = true ->
  AuthClient_new env credentials = inr auth_client ->
  current_service_urls auth_client = inr service_urls ->
  user_hubs auth_client = inr hubs ->
  let d := populate env auth_client credentials service_urls hubs
                    (_providers self) in
  enable_account env token url kwargs self =
  mkOutcome (inr (hd_error (OrderedDict.values d)))
            (mkFactory (Some credentials) d)
            (failures env auth_client credentials service_urls hubs ++
             match d with
             | [] => [warning no_hubs_msg []]
             | _ :: _ => []
             end).
Proof.
  intros credentials Hc Hv Hnew Hac Hurls Hhubs d.
  rewrite (enable_account_inactive env token url kwargs self Hc).
  cbv zeta. fold credentials. rewrite Hv, Hnew.
  rewrite initialize_providers_outcome, Hac, Hurls, Hhubs.
  cbn [result final logged]. fold d.
  rewrite first_provider_outcome, providers_no_filter.
  cbn [_providers]. destruct d as [|[k p] d']; reflexivity.
Qed.

(** C9.  On an object without credential, once the version endpoint has
    answered: if it does not report a new-API authentication endpoint,
    [enable_account] raises [IBMQAccountCredentialsInvalidUrl] and leaves
    the object unchanged; otherwise, with the service urls and the hub list
    of the authentication client, it makes the credential active, populates
    the provider map from the hub list, and returns the first provider of
    the map, or [None] after the warning that no hub was found when the map
    is empty. *)
Theorem enable_account_outcome :
  forall (env : Collaborators) (token : pyval) (url : string)
         (kwargs : Kwargs) (self : IBMQFactory) (v : VersionInfo),
    let credentials := Credentials_of token url kwargs in
    _credentials self = None ->
    VersionClient_version env credentials = inr v ->
    (reports_new_api_auth v = false ->
       enable_account env token url kwargs self =
       mkOutcome
         (inl (IBMQAccountCredentialsInvalidUrl
                 (invalid_url_msg credentials)))
         self [])
    /\ (reports_new_api_auth v = true ->
        forall (auth_client : AuthClient) (service_urls : ServiceUrls)
               (hubs : list HubInfo),
          AuthClient_new env credentials = inr auth_client ->
          current_service_urls auth_client = inr service_urls ->
          user_hubs auth_client = inr hubs ->
          let d := populate env auth_client credentials service_urls hubs
                            (_providers self) in
          enable_account env token url kwargs self =
          mkOutcome (inr (hd_error (OrderedDict.values d)))
                    (mkFactory (Some credentials) d)
                    (failures env auth_client credentials service_urls hubs
                     ++ match d with
                        | [] => [warning no_hubs_msg []]
                        | _ :: _ => []
                        end)).
Proof.
  intros env token url kwargs self v credentials Hc Hv. split.
  - intros Hnew.
    rewrite (enable_account_inactive env token url kwargs self Hc).
    cbv zeta. fold credentials. now rewrite Hv, Hnew.
  - intros Hnew auth_client service_urls hubs Hac Hurls Hhubs.
    now apply enable_account_populates with (v := v).
Qed.

Lemma enable_account_outcome_witness :
  result (enable_account Sample.three_env Sample.api_token QX_AUTH_URL
            Sample.kwargs init) =
    inr (Some (Sample.provider_for Sample.open_main))
  /\ result (enable_account (Sample.env [] "none" []) Sample.api_token
               QX_AUTH_URL Sample.kwargs init) = inr None
  /\ logged (enable_account (Sample.env [] "none" []) Sample.api_token
               QX_AUTH_URL Sample.kwargs init) = [warning no_hubs_msg []].
Proof.
  split; [|split].
  - rewrite (proj2 (enable_account_outcome Sample.three_env
                      Sample.api_token QX_AUTH_URL Sample.kwargs
                      init eq_refl eq_refl)
                   eq_refl _ _ _ eq_refl eq_refl eq_refl).
    reflexivity.
  - rewrite (proj2 (enable_account_outcome (Sample.env [] "none" [])
                      Sample.api_token QX_AUTH_URL Sample.kwargs
                      init eq_refl eq_refl)
                   eq_refl _ _ _ eq_refl eq_refl eq_refl).
    reflexivity.
  - rewrite (proj2 (enable_account_outcome (Sample.env [] "none" [])
                      Sample.api_token QX_AUTH_URL Sample.kwargs
                      init eq_refl eq_refl)
                   eq_refl _ _ _ eq_refl eq_refl eq_refl).
    reflexivity.
Defined.

(** ** Partial failure of provider construction *)

(** C7, as the code has it.  Once the authentication client has answered
    (service urls and hub entries with the keys of the interface),
    population never raises: an entry whose provider cannot be constructed
    gives one warning and is skipped, and the map is the one the other
    entries alone would give.  After [enable_account] on a session without
    credential, when the scope keys under which the providers are stored
    (the [unique_id()] of the credentials built for each hub entry) are
    pairwise different, the keys of the map are those of the entries that
    construct, in the order of the hub list; so with 3 such entries of which
    exactly 1 fails, [providers()] returns exactly 2 providers. *)
Theorem provider_failures_skipped :
  forall (env : Collaborators) (credentials : Credentials)
         (auth_client : AuthClient) (service_urls : ServiceUrls)
         (hubs : list HubInfo),
    AuthClient_new env credentials = inr auth_client ->
    current_service_urls auth_client = inr service_urls ->
    user_hubs auth_client = inr hubs ->
    let ok := constructs env auth_client credentials service_urls in
    (forall self : IBMQFactory,
        _initialize_providers env credentials self =
        mkOutcome (inr tt)
          (mkFactory (Some credentials)
             (populate env auth_client credentials service_urls
                       (filter ok hubs) (_providers self)))
          (failures env auth_client credentials service_urls hubs))
    /\ List.length (failures env auth_client credentials service_urls hubs)
       = List.length (filter (fun h => negb (ok h)) hubs)
    /\ (forall (token : pyval) (url : string) (kwargs : Kwargs)
               (self : IBMQFactory) (v : VersionInfo),
          credentials = Credentials_of token url kwargs ->
          _credentials self = None ->
          session_invariant self ->
          VersionClient_version env credentials = inr v ->
          reports_new_api_auth v = true ->
          NoDup (map (stored_key env credentials service_urls) hubs) ->
          let self' := final (enable_account env token url kwargs self) in
          OrderedDict.keys (_providers self') =
            map (stored_key env credentials service_urls) (filter ok hubs)
          /\ (List.length hubs = 3 ->
              List.length (filter (fun h => negb (ok h)) hubs) = 1 ->
              List.length (providers self' None None None) = 2)).
Proof.
  intros env credentials auth_client service_urls hubs Hac Hurls Hhubs ok.
  split; [|split].
  - intros self.
    rewrite initialize_providers_outcome, Hac, Hurls, Hhubs.
    now rewrite populate_skips_failures.
  - apply failures_length.
  - intros token url kwargs self v -> Hc Hinv Hv Hnew Hnd self'.
    assert (Hkeys : OrderedDict.keys (_providers self') =
                    map (stored_key env (Credentials_of token url kwargs)
                                    service_urls)
                        (filter ok hubs)).
    { unfold self'.
      rewrite (enable_account_populates env token url kwargs self Hc Hv
                 Hnew Hac Hurls Hhubs).
      cbn [final _providers].
      rewrite (invariant_inactive_empty Hinv Hc).
      rewrite populate_keys_fresh; [reflexivity|assumption|].
      intros h _ []. }
    split; [assumption|].
    intros Hlen Hfail.
    rewrite providers_no_filter.
    unfold OrderedDict.values. rewrite length_map.
    rewrite <- (length_map fst). fold (OrderedDict.keys (_providers self')).
    rewrite Hkeys, length_map.
    pose proof (filter_length ok hubs) as Hsum. lia.
Qed.

Lemma provider_failures_skipped_witness :
  List.length
    (providers
       (final (enable_account Sample.three_env Sample.api_token QX_AUTH_URL
                              Sample.kwargs init))
       None None None) = 2
  /\ List.length
       (logged (_initialize_providers Sample.three_env Sample.credentials
                                      init)) = 1.
Proof.
  pose proof (provider_failures_skipped Sample.three_env Sample.credentials
                eq_refl eq_refl eq_refl) as H.
  cbv zeta in H. destruct H as [Hinit [Hfail Henable]]. split.
  - refine (proj2 (Henable Sample.api_token QX_AUTH_URL Sample.kwargs init
                     (mkVersionInfo true (Some "auth"%string))
                     eq_refl eq_refl init_invariant eq_refl eq_refl _)
                  eq_refl eq_refl).
    repeat constructor; simpl; intuition discriminate.
  - rewrite Hinit. cbn [logged]. rewrite Hfail. reflexivity.
Defined.

(** C7, as the specification words it, fails when two of the hub entries
    name the same scope: the second provider takes the place of the first
    in the map.  Here the server reports 3 entries and construction fails
    for exactly 1 of them, and [providers()] returns 1 provider. *)
Lemma repeated_hub_entry_one_provider :
  user_hubs (Sample.auth_client Sample.repeated_hubs) =
    inr Sample.repeated_hubs
  /\ List.length Sample.repeated_hubs = 3
  /\ List.length
       (filter (fun h => negb (constructs Sample.repeated_env
                                 (Sample.auth_client Sample.repeated_hubs)
                                 Sample.credentials Sample.service_urls h))
               Sample.repeated_hubs) = 1
  /\ List.length
       (providers
          (final (enable_account Sample.repeated_env Sample.api_token
                                 QX_AUTH_URL Sample.kwargs init))
          None None None) = 1.
Proof. repeat split. Qed.

(** The same happens when the hub entries differ but the credentials built
    for them keep no scope: the hypothesis of C7 is on the keys under which
    the providers are stored, not on the hub entries. *)
Lemma unscoped_hub_entries_share_key :
  NoDup (map scope_key Sample.unscoped_hubs)
  /\ map (stored_key Sample.unscoped_env Sample.credentials
                     Sample.service_urls) Sample.unscoped_hubs =
     [HubGroupProject.mk None None None; HubGroupProject.mk None None None;
      scope_key Sample.research_lab]
  /\ List.length
       (providers
          (final (enable_account Sample.unscoped_env Sample.api_token
                                 QX_AUTH_URL Sample.kwargs init))
          None None None) = 1.
Proof.
  split; [|split; reflexivity].
  repeat constructor; simpl; intuition discriminate.
Qed.

(** * Further properties of the factory *)

(** ** Outcome of [load_account] *)

Lemma bind_ret (A B : Type) (a : A) (k : A -> M B) (self : IBMQFactory) :
  bind (ret a) k self = k a self.
Proof. unfold bind, ret. simpl. now destruct (k a self). Qed.

(** [load_account], by the answers of discovery, of the version endpoint
    and of population. *)
Lemma load_account_outcome (env : Collaborators) (self : IBMQFactory) :
  load_account env self =
  match discover_credentials env with
  | inl ex => mkOutcome (inl ex) self []
  | inr discovered =>
      match OrderedDict.values discovered with
      | [] => mkOutcome (inl NotFound) self []
      | _ :: _ :: _ => mkOutcome (inl MultipleFound) self []
      | [credentials] =>
          match VersionClient_version env credentials with
          | inl ex => mkOutcome (inl ex) self []
          | inr v =>
              if reports_new_api_auth v then
                let pre := if is_active (_credentials self)
                           then [warning replaced_msg []] else [] in
                let start := if is_active (_credentials self)
                             then init else self in
                let o := _initialize_providers env credentials start in
                match result o with
                | inl ex => mkOutcome (inl ex) (final o) (pre ++ logged o)
                | inr _ =>
                    mkOutcome (result (first_provider (final o))) (final o)
                      (pre ++ logged o ++ logged (first_provider (final o)))
                end
              else mkOutcome (inl InvalidDiscovered) self []
          end
      end
  end.
Proof.
  unfold load_account. rewrite bind_call.
  destruct (discover_credentials env) as [ex|discovered]; [reflexivity|].
  cbv zeta.
  destruct (OrderedDict.values discovered) as [|credentials [|c' rest]];
    [reflexivity| |now rewrite bind_when_raise].
  rewrite bind_when_raise. cbn [List.length Nat.ltb Nat.leb].
  unfold _check_api_version. rewrite bind_call.
  destruct (VersionClient_version env credentials) as [ex|v];
    [reflexivity|].
  rewrite bind_when_raise. unfold reports_new_api_auth.
  destruct (new_api v), (api_auth v); cbn [negb orb andb];
    try reflexivity.
  rewrite bind_reads. cbv beta. rewrite bind_unfold.
  destruct (_credentials self) as [c|] eqn:Hc; cbn [is_active when].
  - fold replaced_msg. rewrite replace_account_outcome, Hc.
    cbn [result final logged]. rewrite bind_unfold.
    destruct (result (_initialize_providers env credentials init));
      [reflexivity|].
    now rewrite first_provider_final.
  - cbn [ret result final logged app]. rewrite bind_unfold.
    destruct (result (_initialize_providers env credentials self));
      [reflexivity|].
    now rewrite first_provider_final.
Qed.

Lemma first_provider_returns (self : IBMQFactory) :
  exists p : option AccountProvider, result (first_provider self) = inr p.
Proof.
  rewrite first_provider_outcome.
  destruct (providers self None None None) as [|p l];
    eexists; reflexivity.
Qed.

Lemma initialize_providers_raises (env : Collaborators)
    (credentials : Credentials) (self : IBMQFactory) (ex : exn) :
  result (_initialize_providers env credentials self) = inl ex ->
  _initialize_providers env credentials self = mkOutcome (inl ex) self [].
Proof.
  rewrite initialize_providers_outcome.
  destruct (AuthClient_new env credentials) as [e|ac];
    [cbn [result]; congruence|].
  destruct (current_service_urls ac) as [e|urls];
    [cbn [result]; congruence|].
  destruct (user_hubs ac) as [e|hubs];
    [cbn [result]; congruence|discriminate].
Qed.

Lemma enable_account_returns_credentials (env : Collaborators)
    (token : pyval) (url : string) (kwargs : Kwargs) (self : IBMQFactory)
    (p : option AccountProvider) :
  result (enable_account env token url kwargs self) = inr p ->
  _credentials self = None
  /\ _credentials (final (enable_account env token url kwargs self)) =
     Some (Credentials_of token url kwargs).
Proof.
  destruct (_credentials self) as [c|] eqn:Hc.
  - rewrite enable_account_active by congruence. discriminate.
  - rewrite (enable_account_inactive env token url kwargs self Hc).
    cbv zeta.
    destruct (VersionClient_version env _) as [ex|v]; [discriminate|].
    destruct (reports_new_api_auth v); [|discriminate].
    destruct (result (_initialize_providers env _ self)) as [ex|u] eqn:E;
      [discriminate|].
    intros _. cbn [final]. split; [reflexivity|].
    apply (initialize_providers_returns _ _ _ E).
Qed.

(** ** Accounts in use *)

(** X1.  [disable_account] on a session without account raises
    [IBMQAccountCredentialsNotFound] and changes nothing; so a second
    [disable_account] in a row always raises, whatever the first did. *)
Theorem disable_account_twice :
  forall self : IBMQFactory,
    (_credentials self = None ->
       disable_account self = mkOutcome (inl NoAccountInUse) self [])
    /\ result (disable_account (final (disable_account self))) =
       inl NoAccountInUse.
Proof.
  intros self. split.
  - intros Hc. now rewrite disable_account_outcome, Hc.
  - rewrite (disable_account_outcome self).
    destruct (_credentials self) as [c|] eqn:Hc; cbn [final];
      rewrite disable_account_outcome; [reflexivity|now rewrite Hc].
Qed.

Lemma disable_account_twice_witness :
  disable_account init = mkOutcome (inl NoAccountInUse) init []
  /\ result (disable_account (final (disable_account Sample.enabled))) =
     inl NoAccountInUse.
Proof.
  split.
  - apply (proj1 (disable_account_twice init)). reflexivity.
  - apply (proj2 (disable_account_twice Sample.enabled)).
Defined.

(** X2.  After an [enable_account] that returned, [active_account] gives
    the token and the url that were passed, and a [disable_account] then
    returns and leaves the object of [__init__], on which [active_account]
    gives [None]. *)
Theorem enable_then_active_then_disable :
  forall (env : Collaborators) (token : pyval) (url : string)
         (kwargs : Kwargs) (self : IBMQFactory)
         (p : option AccountProvider),
    result (enable_account env token url kwargs self) = inr p ->
    let self' := final (enable_account env token url kwargs self) in
    active_account self' = Some (token, url)
    /\ disable_account self' = mkOutcome (inr tt) init []
    /\ active_account (final (disable_account self')) = None.
Proof.
  intros env token url kwargs self p Hp self'.
  destruct (enable_account_returns_credentials _ _ _ _ _ Hp) as [_ Hc].
  fold self' in Hc. unfold active_account at 1. rewrite Hc.
  rewrite disable_account_outcome, Hc. repeat split.
Qed.

Lemma enable_then_active_then_disable_witness :
  active_account Sample.enabled = Some (Sample.api_token, QX_AUTH_URL)
  /\ disable_account Sample.enabled = mkOutcome (inr tt) init [].
Proof.
  pose proof (enable_then_active_then_disable
                (Sample.env [Sample.open_main; Sample.research_lab]
                            "none" [])
                Sample.api_token QX_AUTH_URL Sample.kwargs init
                eq_refl) as H.
  cbv zeta in H. split; [exact (proj1 H)|exact (proj1 (proj2 H))].
Defined.

Lemma auth_raises_outcome (env : Collaborators) (credentials : Credentials)
    (self : IBMQFactory) (ex : exn) :
  auth_raises env credentials ex ->
  _initialize_providers env credentials self = mkOutcome (inl ex) self [].
Proof.
  rewrite initialize_providers_outcome.
  intros [H|[ac [Hac [H|[urls [Hurls H]]]]]].
  - now rewrite H.
  - now rewrite Hac, H.
  - now rewrite Hac, Hurls, H.
Qed.

(** X3.  When the version endpoint raises, or accepts the url but the
    authentication client then raises (on construction, on the service
    urls or on the hub list), [enable_account] raises that exception and
    leaves the object exactly as it was, with nothing logged: the
    credential is assigned only once the client has answered. *)
Theorem enable_account_failure_unchanged :
  forall (env : Collaborators) (token : pyval) (url : string)
         (kwargs : Kwargs) (self : IBMQFactory) (ex : exn),
    let credentials := Credentials_of token url kwargs in
    _credentials self = None ->
    VersionClient_version env credentials = inl ex
    \/ (exists v : VersionInfo,
          VersionClient_version env credentials = inr v
          /\ reports_new_api_auth v = true
          /\ auth_raises env credentials ex) ->
    enable_account env token url kwargs self = mkOutcome (inl ex) self [].
Proof.
  intros env token url kwargs self ex credentials Hc H.
  rewrite (enable_account_inactive env token url kwargs self Hc).
  cbv zeta. fold credentials.
  destruct H as [Hv|[v [Hv [Hnew Hauth]]]].
  - now rewrite Hv.
  - rewrite Hv, Hnew, (auth_raises_outcome self Hauth). reflexivity.
Qed.

Lemma enable_account_failure_unchanged_witness :
  enable_account Sample.unreachable_env Sample.api_token QX_AUTH_URL
                 Sample.kwargs init =
  mkOutcome (inl (OtherException "RequestsApiError")) init [].
Proof.
  apply (@enable_account_failure_unchanged Sample.unreachable_env
           Sample.api_token QX_AUTH_URL Sample.kwargs init
           (OtherException "RequestsApiError") eq_refl).
  right. exists (mkVersionInfo true (Some "auth"%string)).
  split; [reflexivity|]. split; [reflexivity|]. left. reflexivity.
Defined.

(** ** Loading over an account in use *)

(** X4.  When the single discovered credential is accepted by the version
    endpoint but the authentication client then raises, [load_account]
    raises that exception; an account that was in use has by then been
    disabled, after the warning of replacement, so the session is left
    without account and without providers; with no account in use the
    object is unchanged and nothing is logged. *)
Theorem load_account_auth_failure :
  forall (env : Collaborators) (self : IBMQFactory)
         (k : HubGroupProject.t) (credentials : Credentials)
         (v : VersionInfo) (ex : exn),
    discover_credentials env = inr [(k, credentials)] ->
    VersionClient_version env credentials = inr v ->
    reports_new_api_auth v = true ->
    auth_raises env credentials ex ->
    load_account env self =
    match _credentials self with
    | Some _ => mkOutcome (inl ex) init [warning replaced_msg []]
    | None => mkOutcome (inl ex) self []
    end.
Proof.
  intros env self k credentials v ex Hd Hv Hnew Hauth.
  rewrite load_account_outcome, Hd. cbn [OrderedDict.values map snd].
  rewrite Hv, Hnew. cbv zeta.
  rewrite (auth_raises_outcome _ Hauth). cbn [result final logged].
  destruct (_credentials self); reflexivity.
Qed.

Lemma load_account_auth_failure_witness :
  load_account Sample.unreachable_env Sample.enabled =
    mkOutcome (inl (OtherException "RequestsApiError")) init
              [warning replaced_msg []]
  /\ load_account Sample.unreachable_env init =
       mkOutcome (inl (OtherException "RequestsApiError")) init [].
Proof.
  split.
  - apply (@load_account_auth_failure Sample.unreachable_env Sample.enabled
             (unique_id Sample.credentials) Sample.credentials
             (mkVersionInfo true (Some "auth"%string))
             (OtherException "RequestsApiError")
             eq_refl eq_refl eq_refl).
    left. reflexivity.
  - apply (@load_account_auth_failure Sample.unreachable_env init
             (unique_id Sample.credentials) Sample.credentials
             (mkVersionInfo true (Some "auth"%string))
             (OtherException "RequestsApiError")
             eq_refl eq_refl eq_refl).
    left. reflexivity.
Defined.

(** X5.  With exactly one discovered credential, accepted by the version
    endpoint, and an authentication client that answers, [load_account]
    returns: the discovered credential becomes the active one and the
    provider map is populated from the hub list alone, the providers of a
    replaced account being dropped after the warning of replacement; the
    value returned is the first provider of the new map, or [None] after
    the warning that no hub was found. *)
Theorem load_account_replaces :
  forall (env : Collaborators) (self : IBMQFactory)
         (k : HubGroupProject.t) (credentials : Credentials)
         (v : VersionInfo) (auth_client : AuthClient)
         (service_urls : ServiceUrls) (hubs : list HubInfo),
    discover_credentials env = inr [(k, credentials)] ->
    VersionClient_version env credentials = inr v ->
    reports_new_api_auth v = true ->
    AuthClient_new env credentials = inr auth_client ->
    current_service_urls auth_client = inr service_urls ->
    user_hubs auth_client = inr hubs ->
    let d := populate env auth_client credentials service_urls hubs
               (if is_active (_credentials self) then []
                else _providers self) in
    load_account env self =
    mkOutcome (inr (hd_error (OrderedDict.values d)))
              (mkFactory (Some credentials) d)
              ((if is_active (_credentials self)
                then [warning replaced_msg []] else [])
               ++ failures env auth_client credentials service_urls hubs
               ++ match d with
                  | [] => [warning no_hubs_msg []]
                  | _ :: _ => []
                  end).
Proof.
  intros env self k credentials v auth_client service_urls hubs
         Hd Hv Hnew Hac Hurls Hhubs. cbv zeta.
  rewrite load_account_outcome, Hd. cbn [OrderedDict.values map snd].
  rewrite Hv, Hnew. cbv zeta.
  rewrite initialize_providers_outcome, Hac, Hurls, Hhubs.
  cbn [result final logged].
  rewrite first_provider_outcome, providers_no_filter.
  cbn [_providers].
  replace (_providers (if is_active (_credentials self) then init else self))
    with (if is_active (_credentials self) then [] else _providers self)
    by (destruct (_credentials self); reflexivity).
  destruct (populate env auth_client credentials service_urls hubs _)
    as [|[k' p] d']; reflexivity.
Qed.

Lemma load_account_replaces_witness :
  final (load_account Sample.stored_env Sample.enabled) =
    final (enable_account Sample.three_env Sample.api_token QX_AUTH_URL
                          Sample.kwargs init)
  /\ logged (load_account Sample.stored_env Sample.enabled) =
       [warning replaced_msg [];
        warning "Unable to instantiate provider for %s: %s"
                [ArgHubInfo Sample.research_lab;
                 ArgExn (OtherException "ApiError")]].
Proof.
  rewrite (load_account_replaces Sample.stored_env Sample.enabled
             (k := unique_id Sample.credentials)
             (credentials := Sample.credentials)
             eq_refl eq_refl eq_refl eq_refl eq_refl eq_refl).
  split; reflexivity.
Defined.

(** X6.  Loading twice with the same answers is loading once: on a session
    that satisfies the invariant, if [load_account] returns then a second
    [load_account] returns the same value and leaves the same object. *)
Theorem load_account_idempotent :
  forall (env : Collaborators) (self : IBMQFactory)
         (p : option AccountProvider),
    session_invariant self ->
    result (load_account env self) = inr p ->
    let self' := final (load_account env self) in
    result (load_account env self') = inr p
    /\ final (load_account env self') = self'.
Proof.
  intros env self p Hinv.
  rewrite (load_account_outcome env self).
  destruct (discover_credentials env) as [e|discovered] eqn:Hd;
    [discriminate|].
  destruct (OrderedDict.values discovered) as [|credentials [|c' rest]]
    eqn:Hvals; [discriminate| |discriminate].
  destruct (VersionClient_version env credentials) as [e|v] eqn:Hv;
    [discriminate|].
  destruct (reports_new_api_auth v) eqn:Hnew; [|discriminate].
  cbv zeta.
  assert (Hstart : _providers (if is_active (_credentials self)
                               then init else self) = []).
  { destruct (_credentials self) as [c|] eqn:Hc; [reflexivity|].
    cbn [is_active]. now apply invariant_inactive_empty. }
  set (start := if is_active (_credentials self) then init else self)
    in *.
  rewrite (initialize_providers_outcome env credentials start).
  destruct (AuthClient_new env credentials) as [e|ac] eqn:Hac;
    [discriminate|].
  destruct (current_service_urls ac) as [e|urls] eqn:Hurls;
    [discriminate|].
  destruct (user_hubs ac) as [e|hubs] eqn:Hhubs; [discriminate|].
  cbn [result final logged]. rewrite Hstart. intros Hp.
  rewrite load_account_outcome, Hd, Hvals, Hv, Hnew. cbv zeta.
  cbn [_credentials is_active].
  rewrite initialize_providers_outcome, Hac, Hurls, Hhubs.
  cbn [result final logged _providers init OrderedDict.empty].
  split; [assumption|reflexivity].
Qed.

Lemma load_account_idempotent_witness :
  final (load_account Sample.stored_env
           (final (load_account Sample.stored_env init))) =
  final (load_account Sample.stored_env init).
Proof.
  refine (proj2 (load_account_idempotent Sample.stored_env
                   (p := Some (Sample.provider_for Sample.open_main))
                   init_invariant eq_refl)).
Defined.

(** ** The shape of the provider map *)

Lemma setitem_keys_in (V : Type) (k x : HubGroupProject.t) (v : V)
    (d : OrderedDict.t V) :
  In x (OrderedDict.keys (OrderedDict.setitem k v d)) <->
  In x (OrderedDict.keys d) \/ x = k.
Proof.
  induction d as [|[k' v'] d IH]; simpl.
  - intuition.
  - destruct (HubGroupProject.eqb k' k) eqn:E; simpl.
    + apply hgp_eqb_eq in E. subst k'. intuition.
    + rewrite IH. intuition.
Qed.

Lemma setitem_NoDup (V : Type) (k : HubGroupProject.t) (v : V)
    (d : OrderedDict.t V) :
  NoDup (OrderedDict.keys d) ->
  NoDup (OrderedDict.keys (OrderedDict.setitem k v d)).
Proof.
  induction d as [|[k' v'] d IH]; simpl; intros Hnd.
  - constructor; [intros []|constructor].
  - inversion Hnd as [|? ? Hk' Hd]; subst.
    destruct (HubGroupProject.eqb k' k) eqn:E; simpl.
    + now constructor.
    + constructor; [|now apply IH].
      fold (OrderedDict.keys (OrderedDict.setitem k v d)).
      rewrite setitem_keys_in. apply hgp_eqb_neq in E.
      intros [H|H]; [now apply Hk'|congruence].
Qed.

Lemma setitem_Forall (V : Type) (P : HubGroupProject.t * V -> Prop)
    (k : HubGroupProject.t) (v : V) (d : OrderedDict.t V) :
  P (k, v) -> Forall P d -> Forall P (OrderedDict.setitem k v d).
Proof.
  intros Hkv. induction d as [|[k' v'] d IH]; simpl; intros Hd.
  - now constructor.
  - inversion Hd as [|? ? Hx Hd']; subst.
    destruct (HubGroupProject.eqb k' k) eqn:E.
    + apply hgp_eqb_eq in E. subst k'. now constructor.
    + constructor; [assumption|now apply IH].
Qed.

Lemma setitem_length (V : Type) (k : HubGroupProject.t) (v : V)
    (d : OrderedDict.t V) :
  List.length (OrderedDict.setitem k v d) <= S (List.length d).
Proof.
  induction d as [|[k' v'] d IH]; simpl; [lia|].
  destruct (HubGroupProject.eqb k' k); simpl; lia.
Qed.

Section PopulationShape.

Variable env : Collaborators.
Variable auth_client : AuthClient.
Variable credentials : Credentials.
Variable service_urls : ServiceUrls.

Lemma construct_scoped (h : HubInfo) (p : AccountProvider) :
  construct env auth_client (hub_credentials env credentials service_urls h)
  = inr p ->
  scoped_under credentials (stored_key env credentials service_urls h, p).
Proof.
  unfold construct.
  destruct (current_access_token auth_client) as [e|tok]; [discriminate|].
  destruct (AccountProvider_raises env _ tok); [discriminate|].
  intros H. inversion H. subst p.
  unfold scoped_under, stored_key. cbn. repeat split.
Qed.

Lemma populate_NoDup (hubs : list HubInfo) :
  forall d : OrderedDict.t AccountProvider,
    NoDup (OrderedDict.keys d) ->
    NoDup (OrderedDict.keys
             (populate env auth_client credentials service_urls hubs d)).
Proof.
  induction hubs as [|h hubs IH]; intros d Hd; [assumption|].
  rewrite (populate_cons env auth_client credentials service_urls h hubs).
  apply IH. unfold populate. cbn [fold_left].
  destruct (construct env auth_client _); [assumption|].
  now apply setitem_NoDup.
Qed.

Lemma populate_Forall (hubs : list HubInfo) :
  forall d : OrderedDict.t AccountProvider,
    Forall (scoped_under credentials) d ->
    Forall (scoped_under credentials)
           (populate env auth_client credentials service_urls hubs d).
Proof.
  induction hubs as [|h hubs IH]; intros d Hd; [assumption|].
  rewrite (populate_cons env auth_client credentials service_urls h hubs).
  apply IH. unfold populate. cbn [fold_left].
  destruct (construct env auth_client _) as [e|p] eqn:E; [assumption|].
  apply setitem_Forall; [|assumption]. now apply construct_scoped.
Qed.

Lemma populate_length (hubs : list HubInfo) :
  forall d : OrderedDict.t AccountProvider,
    List.length (populate env auth_client credentials service_urls hubs d)
    <= List.length d
       + List.length
           (filter (constructs env auth_client credentials service_urls)
                   hubs).
Proof.
  induction hubs as [|h hubs IH]; intros d; [simpl; lia|].
  rewrite (populate_cons env auth_client credentials service_urls h hubs).
  etransitivity; [apply IH|]. cbn [filter]. unfold populate, constructs.
  cbn [fold_left].
  destruct (construct env auth_client _) as [e|p]; cbn [List.length];
    [lia|].
  pose proof (setitem_length
                (stored_key env credentials service_urls h) p d).
  unfold stored_key in *. lia.
Qed.

Lemma populated_wellformed (hubs : list HubInfo) :
  wellformed
    (mkFactory (Some credentials)
       (populate env auth_client credentials service_urls hubs [])).
Proof.
  split; cbn [_providers _credentials].
  - apply populate_NoDup. constructor.
  - apply populate_Forall. constructor.
Qed.

End PopulationShape.

(** Where a call may leave the object: as it was, as after [__init__], or
    with a new active credential and the map populated from the hub list,
    on top of the old map only if no account was in use. *)
Lemma exec_shape (env : Collaborators) (r : request) (self : IBMQFactory) :
  exec env r self = self \/ exec env r self = init
  \/ exists (c : Credentials) (ac : AuthClient) (urls : ServiceUrls)
            (hubs : list HubInfo),
       exec env r self =
       mkFactory (Some c)
         (populate env ac c urls hubs
            (if is_active (_credentials self) then []
             else _providers self)).
Proof.
  destruct r as [tok u kw | | | ? ? ? ? | | | | ? | ? ? ?
                 | hub group project];
    cbn [exec]; try (now left).
  - destruct (_credentials self) as [c|] eqn:Hc.
    + rewrite enable_account_active by congruence. now left.
    + rewrite (enable_account_inactive env tok u kw self Hc).
      cbv zeta. cbn [is_active].
      destruct (VersionClient_version env _) as [ex|v]; [now left|].
      destruct (reports_new_api_auth v); [|now left].
      rewrite initialize_providers_outcome.
      destruct (AuthClient_new env _) as [ex|ac]; [now left|].
      destruct (current_service_urls ac) as [ex|urls]; [now left|].
      destruct (user_hubs ac) as [ex|hubs]; [now left|].
      right; right. cbn [result final]. eauto.
  - rewrite disable_account_outcome.
    destruct (_credentials self); cbn [final]; auto.
  - rewrite load_account_outcome.
    destruct (discover_credentials env) as [ex|discovered]; [now left|].
    destruct (OrderedDict.values discovered) as [|c [|c' rest]];
      [now left| |now left].
    destruct (VersionClient_version env c) as [ex|v]; [now left|].
    destruct (reports_new_api_auth v); [|now left].
    cbv zeta. rewrite initialize_providers_outcome.
    destruct (AuthClient_new env c) as [ex|ac];
      [destruct (_credentials self); cbn [is_active final]; auto|].
    destruct (current_service_urls ac) as [ex|urls];
      [destruct (_credentials self); cbn [is_active final]; auto|].
    destruct (user_hubs ac) as [ex|hubs];
      [destruct (_credentials self); cbn [is_active final]; auto|].
    right; right. cbn [result final]. exists c, ac, urls, hubs.
    destruct (_credentials self); reflexivity.
  - rewrite get_provider_outcome.
    destruct (providers self hub group project) as [|p [|q l]]; now left.
Qed.

Lemma init_wellformed : wellformed init.
Proof. split; [constructor|reflexivity]. Qed.

Lemma exec_wellformed (env : Collaborators) (r : request)
    (self : IBMQFactory) :
  wellformed self -> wellformed (exec env r self).
Proof.
  intros Hw.
  destruct (exec_shape env r self) as [->|[->|[c [ac [urls [hubs ->]]]]]];
    [assumption|apply init_wellformed|].
  destruct Hw as [_ Hw].
  destruct (_credentials self); cbn [is_active]; [|rewrite Hw];
    apply populated_wellformed.
Qed.

Lemma run_wellformed (calls : list (Collaborators * request)) :
  forall self : IBMQFactory, wellformed self -> wellformed (run calls self).
Proof.
  induction calls as [|[env r] calls IH]; intros self Hw; [assumption|].
  cbn [run fold_left fst snd]. apply IH. now apply exec_wellformed.
Qed.

Lemma matches_all_key (hub group project : option string)
    (key : HubGroupProject.t) :
  truthy_opt hub = true -> truthy_opt group = true ->
  truthy_opt project = true ->
  matches_non_empty hub group project key = true ->
  key = HubGroupProject.mk hub group project.
Proof.
  unfold matches_non_empty. intros -> -> ->.
  rewrite !andb_true_iff, !opt_eqb_eq. destruct key; simpl.
  intros [[-> ->] ->]. reflexivity.
Qed.

Lemma filter_one_key (V : Type) (f : HubGroupProject.t * V -> bool)
    (k : HubGroupProject.t) (d : OrderedDict.t V) :
  NoDup (OrderedDict.keys d) ->
  (forall item, f item = true -> fst item = k) ->
  List.length (filter f d) <= 1.
Proof.
  intros Hnd Hf. induction d as [|x d IH]; simpl; [lia|].
  inversion Hnd as [|? ? Hx Hd]; subst.
  destruct (f x) eqn:Ex; [|now apply IH].
  destruct (filter f d) as [|y l] eqn:Ey; [simpl; lia|].
  exfalso. apply Hx.
  assert (Hy : In y (filter f d)) by (rewrite Ey; now left).
  apply filter_In in Hy as [Hin Hfy].
  rewrite (Hf x Ex), <- (Hf y Hfy). now apply in_map.
Qed.

(** X8.  In every reachable state, a call of [get_provider] with hub, group
    and project all given (none of them null or empty) matches at most one
    provider, and so never raises the error of more than one match. *)
Theorem get_provider_full_scope_not_ambiguous :
  forall (calls : list (Collaborators * request))
         (hub group project : option string),
    truthy_opt hub = true -> truthy_opt group = true ->
    truthy_opt project = true ->
    let self := run calls init in
    List.length (providers self hub group project) <= 1
    /\ result (get_provider hub group project self) <>
       inl AmbiguousProvider.
Proof.
  intros calls hub group project Hh Hg Hp self.
  assert (Hlen : List.length (providers self hub group project) <= 1).
  { rewrite providers_select. unfold select, OrderedDict.values.
    rewrite length_map.
    apply filter_one_key with (k := HubGroupProject.mk hub group project).
    - apply (run_wellformed calls init_wellformed).
    - intros item. now apply matches_all_key. }
  split; [assumption|].
  rewrite get_provider_outcome.
  destruct (providers self hub group project) as [|p [|q l]];
    [discriminate|discriminate|simpl in Hlen; lia].
Qed.

Lemma get_provider_full_scope_not_ambiguous_witness :
  List.length (providers Sample.enabled (Some "ibm-q"%string)
                 (Some "open"%string) (Some "main"%string)) <= 1
  /\ result (get_provider (Some "ibm-q"%string) (Some "open"%string)
               (Some "main"%string) Sample.enabled)
     <> inl AmbiguousProvider.
Proof.
  exact (get_provider_full_scope_not_ambiguous
           [(Sample.env [Sample.open_main; Sample.research_lab] "none" [],
             EnableAccount Sample.api_token QX_AUTH_URL Sample.kwargs)]
           (Some "ibm-q"%string) (Some "open"%string) (Some "main"%string)
           eq_refl eq_refl eq_refl).
Defined.

Lemma select_In (p : HubGroupProject.t -> bool)
    (d : OrderedDict.t AccountProvider) (q : AccountProvider) :
  In q (select p d) <-> exists key, In (key, q) d /\ p key = true.
Proof.
  unfold select, OrderedDict.values. rewrite in_map_iff. split.
  - intros [[key q'] [Hq Hin]]. simpl in Hq. subst q'.
    apply filter_In in Hin as [Hin Hp]. eauto.
  - intros [key [Hin Hp]]. exists (key, q). split; [reflexivity|].
    apply filter_In. auto.
Qed.

(** X9.  In every reachable state, the provider that [get_provider]
    returns is one of the session's providers, its credentials are scoped
    to every hub, group or project that was asked for (null and empty
    arguments apart), and they carry the token, the proxies and the verify
    flag of the account in use. *)
Theorem get_provider_returns_scoped :
  forall (calls : list (Collaborators * request))
         (hub group project : option string) (q : AccountProvider),
    let self := run calls init in
    result (get_provider hub group project self) = inr q ->
    In q (providers self None None None)
    /\ (truthy_opt hub = true -> c_hub (provider_credentials q) = hub)
    /\ (truthy_opt group = true ->
        c_group (provider_credentials q) = group)
    /\ (truthy_opt project = true ->
        c_project (provider_credentials q) = project)
    /\ exists c : Credentials,
         _credentials self = Some c
         /\ token (provider_credentials q) = token c
         /\ proxies (provider_credentials q) = proxies c
         /\ verify (provider_credentials q) = verify c.
Proof.
  intros calls hub group project q self.
  rewrite get_provider_outcome.
  destruct (providers self hub group project) as [|p [|p' l]] eqn:E;
    [discriminate| |discriminate].
  cbn [result]. intros H. inversion H. subst p. clear H.
  assert (Hin : In q (providers self hub group project))
    by (rewrite E; now left).
  rewrite providers_select in Hin.
  apply select_In in Hin as [key [Hin Hm]].
  destruct (run_wellformed calls init_wellformed) as [_ Hw].
  fold self in Hw.
  destruct (_credentials self) as [c|];
    [|rewrite Hw in Hin; destruct Hin].
  rewrite Forall_forall in Hw.
  destruct (Hw _ Hin) as [Hkey [Htok [Hprox Hver]]].
  cbn [fst snd] in *.
  unfold matches_non_empty in Hm.
  rewrite !andb_true_iff in Hm. destruct Hm as [[Hh Hg] Hp].
  subst key. cbn [unique_id HubGroupProject.hub HubGroupProject.group
                  HubGroupProject.project] in *.
  split; [|split; [|split; [|split]]].
  - rewrite providers_no_filter. unfold OrderedDict.values.
    apply in_map_iff. now exists (unique_id (provider_credentials q), q).
  - intros T. rewrite T in Hh. now apply opt_eqb_eq.
  - intros T. rewrite T in Hg. now apply opt_eqb_eq.
  - intros T. rewrite T in Hp. now apply opt_eqb_eq.
  - exists c. auto.
Qed.

Lemma get_provider_returns_scoped_witness :
  c_group (provider_credentials
             (Sample.provider_for Sample.research_lab))
  = Some "research"%string.
Proof.
  refine (proj1 (proj2 (proj2
    (get_provider_returns_scoped
       [(Sample.env [Sample.open_main; Sample.research_lab] "none" [],
         EnableAccount Sample.api_token QX_AUTH_URL Sample.kwargs)]
       None (Some "research"%string) None
       (q := Sample.provider_for Sample.research_lab)
       eq_refl))) eq_refl).
Defined.

(** ** What population stores *)

(** Two hub entries stored under the same key have the same credentials:
    the url follows from the scope, the rest from the active credential. *)
Lemma stored_key_credentials (env : Collaborators)
    (credentials : Credentials) (service_urls : ServiceUrls)
    (h h' : HubInfo) :
  stored_key env credentials service_urls h =
  stored_key env credentials service_urls h' ->
  hub_credentials env credentials service_urls h =
  hub_credentials env credentials service_urls h'.
Proof.
  unfold stored_key, unique_id, hub_credentials. cbn.
  destruct (Credentials_scope env (http service_urls) h) as [a b c].
  destruct (Credentials_scope env (http service_urls) h') as [a' b' c'].
  cbn. intros H. inversion H. reflexivity.
Qed.

Lemma setitem_In_same (V : Type) (k : HubGroupProject.t) (v : V)
    (d : OrderedDict.t V) :
  In (k, v) (OrderedDict.setitem k v d).
Proof.
  induction d as [|[k' v'] d IH]; simpl; [now left|].
  destruct (HubGroupProject.eqb k' k) eqn:E.
  - apply hgp_eqb_eq in E. subst k'. now left.
  - now right.
Qed.

Lemma setitem_In_other (V : Type) (k k' : HubGroupProject.t) (v v' : V)
    (d : OrderedDict.t V) :
  k' <> k -> In (k', v') d -> In (k', v') (OrderedDict.setitem k v d).
Proof.
  intros Hne. induction d as [|[k0 v0] d IH]; simpl; [tauto|].
  destruct (HubGroupProject.eqb k0 k) eqn:E.
  - apply hgp_eqb_eq in E. subst k0.
    intros [H|H]; [inversion H; congruence|now right].
  - intros [H|H]; [now left|right; now apply IH].
Qed.

Section PopulationContents.

Variable env : Collaborators.
Variable auth_client : AuthClient.
Variable credentials : Credentials.
Variable service_urls : ServiceUrls.

Let build (h : HubInfo) : exn + AccountProvider :=
  construct env auth_client (hub_credentials env credentials service_urls h).

(** An entry already stored under the key of a hub entry is kept, or
    stored again as it is, by the rest of the loop. *)
Lemma populate_keeps (hubs : list HubInfo) :
  forall (d : OrderedDict.t AccountProvider) (h : HubInfo)
         (p : AccountProvider),
    build h = inr p ->
    In (stored_key env credentials service_urls h, p) d ->
    In (stored_key env credentials service_urls h, p)
       (populate env auth_client credentials service_urls hubs d).
Proof.
  induction hubs as [|h' hubs IH]; intros d h p Hb Hin; [assumption|].
  rewrite (populate_cons env auth_client credentials service_urls h' hubs).
  apply IH; [assumption|]. unfold populate. cbn [fold_left].
  destruct (construct env auth_client
              (hub_credentials env credentials service_urls h'))
    as [e|p'] eqn:E; [assumption|].
  destruct (HubGroupProject.eqb (stored_key env credentials service_urls h)
              (stored_key env credentials service_urls h')) eqn:Ek.
  - apply hgp_eqb_eq in Ek.
    pose proof (stored_key_credentials Ek) as Hcred.
    unfold build in Hb. rewrite <- Hcred, Hb in E. inversion E. subst p'.
    fold (stored_key env credentials service_urls h').
    rewrite <- Ek.
    apply setitem_In_same.
  - apply setitem_In_other; [|assumption]. now apply hgp_eqb_neq.
Qed.

(** Every hub entry that constructs ends up in the map, under its scope
    key. *)
Lemma populate_In (hubs : list HubInfo) :
  forall (d : OrderedDict.t AccountProvider) (h : HubInfo)
         (p : AccountProvider),
    In h hubs -> build h = inr p ->
    In (stored_key env credentials service_urls h, p)
       (populate env auth_client credentials service_urls hubs d).
Proof.
  induction hubs as [|h' hubs IH]; intros d h p Hin Hb; [destruct Hin|].
  rewrite (populate_cons env auth_client credentials service_urls h' hubs).
  destruct Hin as [->|Hin]; [|now apply IH].
  apply populate_keeps; [assumption|].
  unfold populate. cbn [fold_left]. unfold build in Hb. rewrite Hb.
  apply setitem_In_same.
Qed.

(** The first entry of the map stays first. *)
Lemma populate_head (hubs : list HubInfo) :
  forall (h : HubInfo) (p : AccountProvider)
         (d : OrderedDict.t AccountProvider),
    build h = inr p ->
    exists d',
      populate env auth_client credentials service_urls hubs
               ((stored_key env credentials service_urls h, p) :: d) = (stored_key env credentials service_urls h, p) :: d'.
Proof.
  induction hubs as [|h' hubs IH]; intros h p d Hb; [now exists d|].
  rewrite (populate_cons env auth_client credentials service_urls h' hubs).
  unfold populate at 2. cbn [fold_left].
  destruct (construct env auth_client
              (hub_credentials env credentials service_urls h'))
    as [e|p'] eqn:E; [now apply IH|].
  cbn [OrderedDict.setitem].
  change (unique_id (hub_credentials env credentials service_urls h'))
    with (stored_key env credentials service_urls h').
  destruct (HubGroupProject.eqb (stored_key env credentials service_urls h)
              (stored_key env credentials service_urls h')) eqn:Ek.
  - apply hgp_eqb_eq in Ek.
    pose proof (stored_key_credentials Ek) as Hcred.
    unfold build in Hb. rewrite <- Hcred, Hb in E. inversion E. subst p'.
    now apply IH.
  - now apply IH.
Qed.

Lemma populate_first (hubs : list HubInfo) :
  hd_error (OrderedDict.values
              (populate env auth_client credentials service_urls hubs []))
  = hd_error (constructed env auth_client credentials service_urls hubs).
Proof.
  induction hubs as [|h hubs IH]; [reflexivity|].
  rewrite (populate_cons env auth_client credentials service_urls h hubs).
  unfold populate at 2, constructed. cbn [fold_left flat_map].
  destruct (construct env auth_client
              (hub_credentials env credentials service_urls h))
    as [e|p] eqn:E; [exact IH|].
  cbn [OrderedDict.setitem app hd_error].
  change (unique_id (hub_credentials env credentials service_urls h))
    with (stored_key env credentials service_urls h).
  destruct (populate_head hubs h [] E) as [d' ->]. reflexivity.
Qed.

Lemma constructed_nil (hubs : list HubInfo) :
  constructed env auth_client credentials service_urls hubs = [] <->
  forall h, In h hubs ->
            constructs env auth_client credentials service_urls h = false.
Proof.
  unfold constructed, constructs.
  induction hubs as [|h hubs IH]; cbn [flat_map].
  - split; [intros _ h []|reflexivity].
  - destruct (construct env auth_client
                (hub_credentials env credentials service_urls h))
      as [e|p] eqn:E; cbn [app].
    + rewrite IH. split.
      * intros H h' [<-|Hin]; [now rewrite E|now apply H].
      * intros H h' Hin. apply H. now right.
    + split; [discriminate|].
      intros H. specialize (H h (or_introl eq_refl)).
      rewrite E in H. discriminate.
Qed.

End PopulationContents.

(** X10.  On a session without account and without providers, once the
    version endpoint accepts the url and the authentication client
    answers, [enable_account] returns the provider of the first hub entry
    for which construction succeeds, later entries for the same scope
    notwithstanding; it returns [None] exactly when construction fails for
    every hub entry (in particular when the hub list is empty). *)
Theorem enable_account_returns_first_constructed :
  forall (env : Collaborators) (token : pyval) (url : string)
         (kwargs : Kwargs) (self : IBMQFactory) (v : VersionInfo)
         (auth_client : AuthClient) (service_urls : ServiceUrls)
         (hubs : list HubInfo),
    let credentials := Credentials_of token url kwargs in
    _credentials self = None ->
    _providers self = [] ->
    VersionClient_version env credentials = inr v ->
    reports_new_api_auth v = true ->
    AuthClient_new env credentials = inr auth_client ->
    current_service_urls auth_client = inr service_urls ->
    user_hubs auth_client = inr hubs ->
    result (enable_account env token url kwargs self) =
      inr (hd_error (constructed env auth_client credentials service_urls
                                 hubs))
    /\ (result (enable_account env token url kwargs self) = inr None <->
        forall h, In h hubs ->
          constructs env auth_client credentials service_urls h = false).
Proof.
  intros env token url kwargs self v auth_client service_urls hubs
         credentials Hc Hd Hv Hnew Hac Hurls Hhubs.
  assert (Hres : result (enable_account env token url kwargs self) =
                 inr (hd_error (constructed env auth_client credentials
                                            service_urls hubs))).
  { rewrite (enable_account_populates env token url kwargs self Hc Hv
               Hnew Hac Hurls Hhubs).
    cbn [result]. rewrite Hd. fold credentials.
    now rewrite populate_first. }
  split; [assumption|].
  rewrite Hres, <- constructed_nil.
  destruct (constructed env auth_client credentials service_urls hubs);
    cbn [hd_error]; split; intros H; congruence.
Qed.

Lemma enable_account_returns_first_constructed_witness :
  result (enable_account (Sample.env Sample.three_hubs "main" [])
            Sample.api_token QX_AUTH_URL Sample.kwargs init) =
    inr (Some (Sample.provider_for Sample.research_lab)).
Proof.
  exact (proj1 (enable_account_returns_first_constructed
                  (Sample.env Sample.three_hubs "main" [])
                  Sample.api_token QX_AUTH_URL Sample.kwargs init
                  eq_refl eq_refl eq_refl eq_refl eq_refl eq_refl eq_refl)).
Defined.

Lemma filter_exactly_one (V : Type) (f : HubGroupProject.t * V -> bool)
    (k : HubGroupProject.t) (v : V) (d : OrderedDict.t V) :
  NoDup (OrderedDict.keys d) ->
  (forall item, f item = true -> fst item = k) ->
  In (k, v) d -> f (k, v) = true ->
  filter f d = [(k, v)].
Proof.
  intros Hnd Hf Hin Hfk.
  pose proof (filter_one_key f d Hnd Hf) as Hlen.
  assert (Hin' : In (k, v) (filter f d)) by (apply filter_In; auto).
  destruct (filter f d) as [|x [|y l]]; simpl in *; [tauto| |lia].
  destruct Hin' as [->|[]]. reflexivity.
Qed.

Lemma opt_eqb_refl (a : option string) : opt_eqb a a = true.
Proof. now apply opt_eqb_eq. Qed.

(** X11.  After such an [enable_account], every hub entry for which
    construction succeeds can be fetched by the scope its credentials keep,
    when hub, group and project of that scope are non-empty: [get_provider]
    with them returns its provider, whatever the other entries of the hub
    list.  In particular, when the credentials keep the hub, group and
    project of the hub entry and these are non-empty, [get_provider] with
    the hub, group and project of the entry returns its provider. *)
Theorem enabled_scope_is_fetched :
  forall (env : Collaborators) (token : pyval) (url : string)
         (kwargs : Kwargs) (self : IBMQFactory) (v : VersionInfo)
         (auth_client : AuthClient) (service_urls : ServiceUrls)
         (hubs : list HubInfo) (h : HubInfo) (p : AccountProvider),
    let credentials := Credentials_of token url kwargs in
    _credentials self = None ->
    _providers self = [] ->
    VersionClient_version env credentials = inr v ->
    reports_new_api_auth v = true ->
    AuthClient_new env credentials = inr auth_client ->
    current_service_urls auth_client = inr service_urls ->
    user_hubs auth_client = inr hubs ->
    In h hubs ->
    construct env auth_client
              (hub_credentials env credentials service_urls h) = inr p ->
    let self' := final (enable_account env token url kwargs self) in
    let key := stored_key env credentials service_urls h in
    (truthy_opt (HubGroupProject.hub key) = true ->
     truthy_opt (HubGroupProject.group key) = true ->
     truthy_opt (HubGroupProject.project key) = true ->
     get_provider (HubGroupProject.hub key) (HubGroupProject.group key)
                  (HubGroupProject.project key) self' =
     mkOutcome (inr p) self' [])
    /\ (key = scope_key h ->
        hi_hub h <> EmptyString -> hi_group h <> EmptyString ->
        hi_project h <> EmptyString ->
        get_provider (Some (hi_hub h)) (Some (hi_group h))
                     (Some (hi_project h)) self' =
        mkOutcome (inr p) self' []).
Proof.
  intros env token url kwargs self v auth_client service_urls hubs h p
         credentials Hc Hd Hv Hnew Hac Hurls Hhubs Hin Hb self' key.
  assert (Hself : _providers self' =
                  populate env auth_client credentials service_urls hubs []).
  { unfold self'.
    rewrite (enable_account_populates env token url kwargs self Hc Hv
               Hnew Hac Hurls Hhubs).
    cbn [final _providers]. now rewrite Hd. }
  assert (Hgen : truthy_opt (HubGroupProject.hub key) = true ->
                 truthy_opt (HubGroupProject.group key) = true ->
                 truthy_opt (HubGroupProject.project key) = true ->
                 get_provider (HubGroupProject.hub key)
                   (HubGroupProject.group key) (HubGroupProject.project key)
                   self' = mkOutcome (inr p) self' []).
  { intros Th Tg Tp.
    assert (Hsel : providers self' (HubGroupProject.hub key)
                     (HubGroupProject.group key)
                     (HubGroupProject.project key) = [p]).
    { rewrite providers_select. unfold select, OrderedDict.values.
      rewrite (@filter_exactly_one _ _ key p).
      - reflexivity.
      - rewrite Hself. apply populate_NoDup. constructor.
      - intros item Hm.
        apply matches_all_key in Hm; [exact Hm|assumption..].
      - rewrite Hself. now apply populate_In.
      - cbn [fst]. unfold matches_non_empty.
        now rewrite Th, Tg, Tp, !opt_eqb_refl. }
    rewrite get_provider_outcome, Hsel. reflexivity. }
  split; [exact Hgen|].
  intros Hkey Hh Hg Hp.
  assert (Ht : forall s, s <> EmptyString -> truthy_opt (Some s) = true).
  { intros s Hs. simpl. apply String.eqb_neq in Hs. now rewrite Hs. }
  rewrite Hkey in Hgen. apply Hgen; now apply Ht.
Qed.

Lemma enabled_scope_is_fetched_witness :
  result (get_provider (Some "partner"%string) (Some "internal"%string)
            (Some "pilot"%string)
            (final (enable_account Sample.three_env Sample.api_token
                      QX_AUTH_URL Sample.kwargs init))) =
  inr (Sample.provider_for Sample.partner_pilot).
Proof.
  pose proof (@enabled_scope_is_fetched Sample.three_env Sample.api_token
                QX_AUTH_URL Sample.kwargs init
                (mkVersionInfo true (Some "auth"%string))
                (Sample.auth_client Sample.three_hubs) Sample.service_urls
                Sample.three_hubs Sample.partner_pilot
                (Sample.provider_for Sample.partner_pilot)
                eq_refl eq_refl eq_refl eq_refl eq_refl eq_refl eq_refl
                (or_intror (or_intror (or_introl eq_refl))) eq_refl) as H.
  cbv zeta in H. destruct H as [_ H].
  refine (f_equal (@result _) (H eq_refl _ _ _)); discriminate.
Defined.

Lemma failures_are_build_warnings (env : Collaborators)
    (auth_client : AuthClient) (credentials : Credentials)
    (service_urls : ServiceUrls) (hubs : list HubInfo) :
  filter is_build_warning
         (failures env auth_client credentials service_urls hubs) =
  failures env auth_client credentials service_urls hubs.
Proof.
  induction hubs as [|h hubs IH]; [reflexivity|].
  rewrite (failures_cons env auth_client credentials service_urls h hubs).
  rewrite filter_app, IH. f_equal.
  unfold failures. cbn [flat_map].
  destruct (construct env auth_client _); reflexivity.
Qed.

(** X12.  After such an [enable_account], the log holds exactly one warning
    of failed construction per hub entry whose provider could not be
    constructed, and these warnings and the providers together never
    outnumber the hub entries: each entry gives at most one provider or
    exactly one warning. *)
Theorem enable_account_counts :
  forall (env : Collaborators) (token : pyval) (url : string)
         (kwargs : Kwargs) (self : IBMQFactory) (v : VersionInfo)
         (auth_client : AuthClient) (service_urls : ServiceUrls)
         (hubs : list HubInfo),
    let credentials := Credentials_of token url kwargs in
    _credentials self = None ->
    _providers self = [] ->
    VersionClient_version env credentials = inr v ->
    reports_new_api_auth v = true ->
    AuthClient_new env credentials = inr auth_client ->
    current_service_urls auth_client = inr service_urls ->
    user_hubs auth_client = inr hubs ->
    let o := enable_account env token url kwargs self in
    let warnings := filter is_build_warning (logged o) in
    List.length warnings =
      List.length
        (filter (fun h => negb (constructs env auth_client credentials
                                           service_urls h)) hubs)
    /\ List.length (providers (final o) None None None)
       + List.length warnings <= List.length hubs.
Proof.
  intros env token url kwargs self v auth_client service_urls hubs
         credentials Hc Hd Hv Hnew Hac Hurls Hhubs o warnings.
  assert (Hw : warnings =
               failures env auth_client credentials service_urls hubs).
  { unfold warnings, o.
    rewrite (enable_account_populates env token url kwargs self Hc Hv
               Hnew Hac Hurls Hhubs).
    cbn [logged]. fold credentials.
    rewrite filter_app, failures_are_build_warnings.
    destruct (populate env auth_client credentials service_urls hubs _);
      cbn; now rewrite app_nil_r. }
  rewrite Hw, failures_length. split; [reflexivity|].
  unfold o.
  rewrite (enable_account_populates env token url kwargs self Hc Hv
             Hnew Hac Hurls Hhubs).
  cbn [final]. rewrite providers_no_filter. cbn [_providers].
  unfold OrderedDict.values. rewrite length_map, Hd.
  fold credentials.
  pose proof (populate_length env auth_client credentials service_urls
                hubs []) as Hlen.
  pose proof (filter_length
                (constructs env auth_client credentials service_urls) hubs)
    as Hsum.
  cbn [List.length] in Hlen. lia.
Qed.

Lemma enable_account_counts_witness :
  List.length
    (filter is_build_warning
       (logged (enable_account Sample.repeated_env Sample.api_token
                               QX_AUTH_URL Sample.kwargs init))) = 1
  /\ List.length
       (providers (final (enable_account Sample.repeated_env
                            Sample.api_token QX_AUTH_URL Sample.kwargs
                            init))
                  None None None)
     + List.length
         (filter is_build_warning
            (logged (enable_account Sample.repeated_env Sample.api_token
                                    QX_AUTH_URL Sample.kwargs init)))
     <= 3.
Proof.
  exact (enable_account_counts Sample.repeated_env Sample.api_token
           QX_AUTH_URL Sample.kwargs init
           eq_refl eq_refl eq_refl eq_refl eq_refl eq_refl eq_refl).
Defined.

(** ** Checks that come before any change *)

(** X13.  When the single discovered credential is rejected, the version
    endpoint not reporting a new-API authentication endpoint,
    [load_account] raises [IBMQAccountCredentialsInvalidUrl] and the
    account in use, if any, stays in place with its providers: the check
    comes before the replacement. *)
Theorem load_account_rejected_keeps_account :
  forall (env : Collaborators) (self : IBMQFactory)
         (k : HubGroupProject.t) (credentials : Credentials)
         (v : VersionInfo),
    discover_credentials env = inr [(k, credentials)] ->
    VersionClient_version env credentials = inr v ->
    reports_new_api_auth v = false ->
    load_account env self = mkOutcome (inl InvalidDiscovered) self [].
Proof.
  intros env self k credentials v Hd Hv Hnew.
  rewrite load_account_outcome, Hd. cbn [OrderedDict.values map snd].
  now rewrite Hv, Hnew.
Qed.

Lemma load_account_rejected_keeps_account_witness :
  load_account Sample.legacy_env Sample.enabled =
  mkOutcome (inl InvalidDiscovered) Sample.enabled [].
Proof.
  apply (load_account_rejected_keeps_account Sample.legacy_env
           Sample.enabled
           (k := unique_id Sample.legacy_credentials)
           (credentials := Sample.legacy_credentials)
           (v := mkVersionInfo false None) eq_refl eq_refl eq_refl).
Defined.

(** X14.  Whenever [stored_account] reports an account, the disk holds
    exactly one credential, the token reported is its token and the url
    reported is the canonical authentication URL; and [delete_account]
    with the same disk passes its checks and hands that credential to
    [remove_credentials]. *)
Theorem stored_account_reports_canonical :
  forall (env : Collaborators) (tok : pyval) (u : string),
    stored_account env = inr (Some (tok, u)) ->
    u = QX_AUTH_URL
    /\ exists (k : HubGroupProject.t) (c : Credentials),
         read_credentials_from_qiskitrc env = inr [(k, c)]
         /\ tok = token c /\ url c = QX_AUTH_URL
         /\ delete_account env = remove_credentials env c.
Proof.
  intros env tok u. unfold stored_account, delete_account.
  destruct (read_credentials_from_qiskitrc env) as [ex|stored];
    [discriminate|].
  unfold OrderedDict.values, OrderedDict.len.
  destruct stored as [|[k c] [|[k' c'] rest]];
    [discriminate| |discriminate].
  cbn [map snd List.length Nat.ltb Nat.leb Nat.eqb negb].
  destruct (String.eqb (url c) QX_AUTH_URL) eqn:Hu; cbn [negb];
    [|discriminate].
  apply String.eqb_eq in Hu. intros H. inversion H. subst tok u.
  split; [assumption|]. exists k, c. auto.
Qed.

Lemma stored_account_reports_canonical_witness :
  delete_account Sample.stored_env =
  remove_credentials Sample.stored_env Sample.credentials.
Proof.
  destruct (stored_account_reports_canonical Sample.stored_env
              (tok := Sample.api_token) (u := QX_AUTH_URL) eq_refl)
    as [_ [k [c [Hr [_ [_ Hdel]]]]]].
  inversion Hr. subst c. exact Hdel.
Defined.

Lemma matches_non_empty_omit (hub group project : option string)
    (key : HubGroupProject.t) :
  matches_non_empty hub group project key = true ->
  matches_non_empty None group project key = true
  /\ matches_non_empty hub None project key = true
  /\ matches_non_empty hub group None key = true.
Proof.
  unfold matches_non_empty. cbn [truthy_opt].
  rewrite !andb_true_iff. intuition.
Qed.

(** X15.  Filters only narrow: a provider returned by [providers] with some
    filters is also returned when any one of them is omitted, and when all
    are; so no call returns more providers than [providers()] does. *)
Theorem providers_filters_narrow :
  forall (self : IBMQFactory) (hub group project : option string),
    (forall q : AccountProvider,
        In q (providers self hub group project) ->
        In q (providers self None group project)
        /\ In q (providers self hub None project)
        /\ In q (providers self hub group None)
        /\ In q (providers self None None None))
    /\ List.length (providers self hub group project) <=
       List.length (providers self None None None).
Proof.
  intros self hub group project. split.
  - intros q. rewrite !providers_select, !select_In.
    intros [key [Hin Hm]].
    destruct (matches_non_empty_omit _ _ _ _ Hm) as [H1 [H2 H3]].
    repeat split; exists key; split; try assumption; reflexivity.
  - rewrite providers_select, providers_no_filter.
    unfold select, OrderedDict.values. rewrite !length_map.
    apply filter_length_le.
Qed.
